(** * mcp-openai-complete: the completion task lifecycle

    A shallow embedding of the TypeScript server (src/constants.ts,
    src/types.ts, src/utils.ts and src/index.ts) and the properties of its
    per-request task lifecycle.

    JavaScript runs one macrotask at a time and drains the microtask queue
    before the next one starts.  The embedding follows that: the server is a
    value of type [Server.t], and every macrotask (an incoming tool call, the
    settlement of the outbound HTTP call, a timer callback, an external call
    of [cancelTask]) is one total function on it, composed of the statements
    that the source executes in that turn. *)

From stdpp Require Import base option strings list gmap.
From Stdlib Require Import ZArith QArith.

Set Warnings "-register-all".
Local Open Scope string_scope.
Local Open Scope Z_scope.

(** ** JavaScript values, as far as the server inspects them *)

(** Finite numbers only: the code never computes with a caller's number, it
    tests its type and passes it on. *)
Definition number : Type := Q.

Inductive JsValue : Type :=
| JsUndefined
| JsNull
| JsBoolean (b : bool)
| JsNumber (n : number)
| JsString (s : string)
| JsArray (items : list JsValue)
| JsObject (fields : list (string * JsValue)).

(** The [typeof] operator. *)
Definition typeof (v : JsValue) : string :=
  match v with
  | JsUndefined => "undefined"
  | JsNull => "object"
  | JsBoolean _ => "boolean"
  | JsNumber _ => "number"
  | JsString _ => "string"
  | JsArray _ => "object"
  | JsObject _ => "object"
  end.

(** An object literal is kept as its list of fields; reading a name takes the
    first binding and yields [undefined] when there is none. *)
Fixpoint field (fields : list (string * JsValue)) (name : string) : JsValue :=
  match fields with
  | [] => JsUndefined
  | (k, v) :: rest => if String.eqb k name then v else field rest name
  end.

(** [v[name]] for the names the server reads ([prompt] and the five
    generation parameters) on a value that is neither [null] nor
    [undefined]: only a plain object can hold them. *)
Definition prop (v : JsValue) (name : string) : JsValue :=
  match v with
  | JsObject fields => field fields name
  | _ => JsUndefined
  end.

(** Truthiness, as used by [||] and [if]. *)
Definition truthy (v : JsValue) : bool :=
  match v with
  | JsUndefined | JsNull => false
  | JsBoolean b => b
  | JsNumber n => negb (Qnum n =? 0)%Z
  | JsString s => negb (String.eqb s "")
  | JsArray _ | JsObject _ => true
  end.

(** ** Thrown values *)

(** The error codes of the protocol library that the server uses, and
    their numbers, which are those of JSON-RPC, as a template literal
    renders them. *)
Inductive ErrorCode : Type := InvalidRequest | MethodNotFound | InvalidParams.

Definition codeNumber (code : ErrorCode) : string :=
  match code with
  | InvalidRequest => "-32600"
  | MethodNotFound => "-32601"
  | InvalidParams => "-32602"
  end.

(** What a [throw] or a rejected promise carries.  [McpError code message]
    holds the two constructor arguments; the [message] property of such an
    error is not the second argument: the constructor of the protocol
    library passes "MCP error <code>: <message>" on to [Error] (see
    [messageOr] below).  [OtherError] is any other instance of [Error] (a
    [TypeError], an error of the HTTP client); [NonError] is a thrown value
    that is not an [Error], given by its [String(..)] rendering. *)
Inductive JsError : Type :=
| CompletionTimeoutError (message : string)
| CompletionCancelledError (message : string)
| McpError (code : ErrorCode) (message : string)
| OtherError (message : string)
| NonError (rendering : string).

(** The outcome of running a piece of code: a value or a throw. *)
Inductive Outcome (A : Type) : Type :=
| Returns (a : A)
| Throws (e : JsError).
Arguments Returns {A} a.
Arguments Throws {A} e.

#[global] Instance Outcome_ret : MRet Outcome := fun A a => Returns a.
#[global] Instance Outcome_bind : MBind Outcome := fun A B f m =>
  match m with
  | Returns a => f a
  | Throws e => Throws e
  end.

(** The message of the [TypeError] that V8 raises for [undefined.text]. *)
Definition cannot_read (what name : string) : string :=
  "Cannot read properties of " ++ what ++ " (reading '" ++ name ++ "')".

(** Property access as an operation that can throw. *)
Definition getProp (v : JsValue) (name : string) : Outcome JsValue :=
  match v with
  | JsUndefined => Throws (OtherError (cannot_read "undefined" name))
  | JsNull => Throws (OtherError (cannot_read "null" name))
  | _ => Returns (prop v name)
  end.

(** ** src/constants.ts *)
Module Constants.

Definition DEFAULT_MODEL : string := "text-davinci-003".
Definition DEFAULT_MAX_TOKENS : number := 150 # 1.
Definition DEFAULT_TEMPERATURE : number := 7 # 10.
Definition DEFAULT_TOP_P : number := 1 # 1.
Definition DEFAULT_FREQUENCY_PENALTY : number := 0 # 1.
Definition DEFAULT_PRESENCE_PENALTY : number := 0 # 1.

Definition COMPLETION_TIMEOUT_MS : Z := 60000.
Definition PROGRESS_UPDATE_INTERVAL_MS : Z := 500.

End Constants.

(** ** src/utils.ts *)
Module Utils.

Definition optionalNumericParams : list string :=
  [ "max_tokens"; "temperature"; "top_p"; "frequency_penalty"; "presence_penalty" ].

(** The [for ... of] loop with its early [return false]. *)
Fixpoint checkOptional (params : list string) (candidate : JsValue) : Outcome bool :=
  match params with
  | [] => Returns true
  | param :: rest =>
      v ← getProp candidate param;
      if match v with JsUndefined => false | _ => true end
         && negb (String.eqb (typeof v) "number")
      then Returns false
      else checkOptional rest candidate
  end.

Definition isValidCompletionArgs (args : JsValue) : Outcome bool :=
  if negb (String.eqb (typeof args) "object")
     || match args with JsNull => true | _ => false end
  then Returns false
  else
    let candidate := args in
    prompt ← getProp candidate "prompt";
    if negb (String.eqb (typeof prompt) "string")
    then Returns false
    else checkOptional optionalNumericParams candidate.

(** The validator's contract in the words of the specification. *)
Definition numericIfPresent (v : JsValue) : Prop :=
  v = JsUndefined ∨ ∃ n, v = JsNumber n.

Definition wellShaped (args : JsValue) : Prop :=
  typeof args = "object" ∧ args ≠ JsNull ∧
  (∃ s, prop args "prompt" = JsString s) ∧
  numericIfPresent (prop args "max_tokens") ∧
  numericIfPresent (prop args "temperature") ∧
  numericIfPresent (prop args "top_p") ∧
  numericIfPresent (prop args "frequency_penalty") ∧
  numericIfPresent (prop args "presence_penalty").

(** The names the validator reads. *)
Definition checkedNames : list string := "prompt" :: optionalNumericParams.

End Utils.

(** ** src/types.ts *)

(** The enumeration is written [CompletionStatusEnum.Pending] and so on, as in
    the source. *)
Module CompletionStatusEnum.

Inductive t : Type := Pending | Processing | Complete | Error.

#[global] Instance eq_dec : EqDecision t.
Proof. solve_decision. Defined.

(** The two states no transition of the specification leaves. *)
Definition terminal (st : t) : bool :=
  match st with
  | Complete | Error => true
  | Pending | Processing => false
  end.

End CompletionStatusEnum.

Module Types.

Record Usage : Type := {
  prompt_tokens : number;
  completion_tokens : number;
  total_tokens : number;
}.

Record CompletionResponse : Type := {
  text : string;
  model : string;
  finish_reason : option string;
  usage : option Usage;
}.

(** Of an [AbortController] the server uses [abort()] and
    [signal.aborted]. *)
Record AbortController : Type := { aborted : bool }.

Record CompletionTask : Type := {
  status : CompletionStatusEnum.t;
  result : option CompletionResponse;
  error : option string;
  created_at : Z;
  timeout_at : Z;
  progress : Z;
  abortController : AbortController;
}.

(** Assignments to the fields of a task object. *)
Definition set_status (st : CompletionStatusEnum.t) (task : CompletionTask) : CompletionTask :=
  {| status := st; result := result task; error := error task;
     created_at := created_at task; timeout_at := timeout_at task;
     progress := progress task; abortController := abortController task |}.

Definition set_result (r : CompletionResponse) (task : CompletionTask) : CompletionTask :=
  {| status := status task; result := Some r; error := error task;
     created_at := created_at task; timeout_at := timeout_at task;
     progress := progress task; abortController := abortController task |}.

Definition set_error (msg : string) (task : CompletionTask) : CompletionTask :=
  {| status := status task; result := result task; error := Some msg;
     created_at := created_at task; timeout_at := timeout_at task;
     progress := progress task; abortController := abortController task |}.

Definition set_progress (p : Z) (task : CompletionTask) : CompletionTask :=
  {| status := status task; result := result task; error := error task;
     created_at := created_at task; timeout_at := timeout_at task;
     progress := p; abortController := abortController task |}.

(** [task.abortController.abort()]. *)
Definition abort (task : CompletionTask) : CompletionTask :=
  {| status := status task; result := result task; error := error task;
     created_at := created_at task; timeout_at := timeout_at task;
     progress := progress task; abortController := {| aborted := true |} |}.

(** The error classes with the default messages of their constructors. *)
Definition newCompletionTimeoutError : JsError :=
  CompletionTimeoutError "OpenAI API request timed out".
Definition newCompletionCancelledError : JsError :=
  CompletionCancelledError "OpenAI API request was cancelled".

End Types.

(** ** The two libraries at the server's boundary *)

(** The completion endpoint of the HTTP client: the request the server
    builds and the part of the response it reads.  A field the response may
    lack is an [option]. *)
Module OpenAI.

Record CompletionCreateParams : Type := {
  model : string;
  prompt : JsValue;
  max_tokens : JsValue;
  temperature : JsValue;
  top_p : JsValue;
  frequency_penalty : JsValue;
  presence_penalty : JsValue;
}.

Record CompletionChoice : Type := {
  text : option string;
  finish_reason : option string;
}.

Record CompletionUsage : Type := {
  prompt_tokens : number;
  completion_tokens : number;
  total_tokens : number;
}.

Record Completion : Type := {
  choices : list CompletionChoice;
  usage : option CompletionUsage;
}.

End OpenAI.

(** What a tool call answers with. *)
Module Protocol.

Record ContentItem : Type := { type : string; text : string }.
Record CallToolResult : Type := { content : list ContentItem }.

End Protocol.

(** ** src/index.ts: the server *)
Module Server.
Import Constants.

(** The two callbacks the server hands to [setTimeout]: the one of
    [createTimeoutPromise], which closes over [taskId] and over the
    [reject] of the promise it belongs to, and the one of the [finally]
    block of [complete], which closes over [taskId]. *)
Inductive Timer : Type :=
| TimeoutTimer (taskId : string) (call : nat)
| CleanupTimer (taskId : string).

(** One activation of [handleCompleteTool] and of the [complete] it awaits:
    its [taskId], the task object its [const task = {..}] allocated,
    whether its [Promise.race] has settled, and what the promise of
    [handleCompleteTool] settled with, once it has.  Activations are
    numbered in the order of their creation; the number also serves as the
    reference to the task object. *)
Record Call : Type := {
  taskId : string;
  task : Types.CompletionTask;
  settled : bool;
  answer : option (Outcome Protocol.CallToolResult);
}.

Definition on_task (f : Types.CompletionTask → Types.CompletionTask) (c : Call) : Call :=
  {| taskId := taskId c; task := f (task c); settled := settled c; answer := answer c |}.
Definition set_settled (c : Call) : Call :=
  {| taskId := taskId c; task := task c; settled := true; answer := answer c |}.
Definition set_answer (a : Outcome Protocol.CallToolResult) (c : Call) : Call :=
  {| taskId := taskId c; task := task c; settled := settled c; answer := Some a |}.

(** The server object together with what the runtime holds for it:
    [this.model]; [this.activeTasks], a map from task identifiers to
    references to task objects; the activations and their task objects;
    the requests handed to the HTTP client so far; the pending timers with
    their due times; the clock in milliseconds. *)
Record t : Type := {
  model : string;
  activeTasks : gmap string nat;
  calls : list Call;
  requests : list OpenAI.CompletionCreateParams;
  timers : list (Z * Timer);
  now : Z;
}.

Definition with_activeTasks (m : gmap string nat) (s : t) : t :=
  {| model := model s; activeTasks := m; calls := calls s;
     requests := requests s; timers := timers s; now := now s |}.
Definition with_calls (cs : list Call) (s : t) : t :=
  {| model := model s; activeTasks := activeTasks s; calls := cs;
     requests := requests s; timers := timers s; now := now s |}.
Definition with_requests (rs : list OpenAI.CompletionCreateParams) (s : t) : t :=
  {| model := model s; activeTasks := activeTasks s; calls := calls s;
     requests := rs; timers := timers s; now := now s |}.
Definition with_timers (ts : list (Z * Timer)) (s : t) : t :=
  {| model := model s; activeTasks := activeTasks s; calls := calls s;
     requests := requests s; timers := ts; now := now s |}.
Definition with_now (n : Z) (s : t) : t :=
  {| model := model s; activeTasks := activeTasks s; calls := calls s;
     requests := requests s; timers := timers s; now := n |}.

(** The server after its constructor, started at time [t0]. *)
Definition init (m : string) (t0 : Z) : t :=
  {| model := m; activeTasks := ∅; calls := []; requests := [];
     timers := []; now := t0 |}.

(** *** Primitives *)

(** [this.activeTasks.get(taskId)], [.set(taskId, task)] and
    [.delete(taskId)]. *)
Definition get (id : string) (s : t) : option nat := activeTasks s !! id.
Definition set (id : string) (ref : nat) (s : t) : t :=
  with_activeTasks (<[id := ref]> (activeTasks s)) s.
Definition remove (id : string) (s : t) : t :=
  with_activeTasks (delete id (activeTasks s)) s.

(** The object behind a reference, and assignments to its fields. *)
Definition object (ref : nat) (s : t) : option Types.CompletionTask :=
  task <$> calls s !! ref.
Definition assign (ref : nat) (f : Types.CompletionTask → Types.CompletionTask) (s : t) : t :=
  with_calls (alter (on_task f) ref (calls s)) s.

(** The task a client finds under an identifier. *)
Definition lookupTask (id : string) (s : t) : option Types.CompletionTask :=
  ref ← get id s; object ref s.

(** [setTimeout(callback, ms)]. *)
Definition setTimeout (callback : Timer) (ms : Z) (s : t) : t :=
  with_timers (timers s ++ [(now s + ms, callback)]) s.

(** *** [complete] up to its [await] *)

(** A destructuring default applies when the field is [undefined]. *)
Definition orDefault (v : JsValue) (d : number) : JsValue :=
  match v with
  | JsUndefined => JsNumber d
  | _ => v
  end.

Definition makeApiCall (prompt max_tokens temperature top_p
    frequency_penalty presence_penalty : JsValue) (s : t) : t :=
  with_requests
    (requests s ++
     [ {| OpenAI.model := model s;
          OpenAI.prompt := prompt;
          OpenAI.max_tokens := max_tokens;
          OpenAI.temperature := temperature;
          OpenAI.top_p := top_p;
          OpenAI.frequency_penalty := frequency_penalty;
          OpenAI.presence_penalty := presence_penalty |} ]) s.

Definition createTimeoutPromise (id : string) (call : nat) (s : t) : t :=
  setTimeout (TimeoutTimer id call) COMPLETION_TIMEOUT_MS s.

(** Lines 212 to 224: the task object is created with status [Pending] and
    entered into the registry.  The two reads of [Date.now()] fall into the
    same turn and yield the same clock value. *)
Definition complete_register (id : string) (s : t) : nat * t :=
  let abortController := {| Types.aborted := false |} in
  let task :=
    {| Types.status := CompletionStatusEnum.Pending;
       Types.result := None;
       Types.error := None;
       Types.created_at := now s;
       Types.timeout_at := now s + COMPLETION_TIMEOUT_MS;
       Types.progress := 0;
       Types.abortController := abortController |} in
  let ref := length (calls s) in
  let s := with_calls
             (calls s ++ [ {| taskId := id; task := task; settled := false; answer := None |} ]) s in
  (ref, set id ref s).

(** Lines 226 to 237: the status becomes [Processing], the outbound call is
    issued and the timeout promise is created; then [complete] awaits the
    race of the two. *)
Definition complete_issue (id : string) (ref : nat)
    (prompt max_tokens temperature top_p frequency_penalty presence_penalty : JsValue)
    (s : t) : t :=
  let s := assign ref (Types.set_status CompletionStatusEnum.Processing) s in
  let s := set id ref s in
  let s := makeApiCall prompt max_tokens temperature top_p frequency_penalty presence_penalty s in
  createTimeoutPromise id ref s.

(** Lines 199 to 237: the arguments are destructured with their defaults,
    then the two steps above. *)
Definition complete_start (id : string) (args : JsValue) (s : t) : nat * t :=
  let prompt := prop args "prompt" in
  let max_tokens := orDefault (prop args "max_tokens") DEFAULT_MAX_TOKENS in
  let temperature := orDefault (prop args "temperature") DEFAULT_TEMPERATURE in
  let top_p := orDefault (prop args "top_p") DEFAULT_TOP_P in
  let frequency_penalty := orDefault (prop args "frequency_penalty") DEFAULT_FREQUENCY_PENALTY in
  let presence_penalty := orDefault (prop args "presence_penalty") DEFAULT_PRESENCE_PENALTY in
  let '(ref, s) := complete_register id s in
  (ref, complete_issue id ref prompt max_tokens temperature top_p
          frequency_penalty presence_penalty s).

(** *** [complete] after its [await] *)

(** The [finally] block. *)
Definition complete_finally (id : string) (s : t) : t :=
  setTimeout (CleanupTimer id) COMPLETION_TIMEOUT_MS s.

(** [error instanceof Error ? error.message : fallback]. *)
Definition messageOr (fallback : string → string) (error : JsError) : string :=
  match error with
  | CompletionTimeoutError m | CompletionCancelledError m | OtherError m => m
  | McpError code m => "MCP error " ++ codeNumber code ++ ": " ++ m
  | NonError rendering => fallback rendering
  end.

(** [abortController.signal.aborted] for the controller of an activation. *)
Definition signalAborted (call : nat) (s : t) : bool :=
  match object call s with
  | Some task => Types.aborted (Types.abortController task)
  | None => false
  end.

(** The [catch] block followed by the [finally] block. *)
Definition complete_catch (id : string) (call : nat) (error : JsError) (s : t)
  : Outcome Types.CompletionResponse * t :=
  let s :=
    match get id s with
    | Some updatedTask =>
        let s := assign updatedTask (Types.set_status CompletionStatusEnum.Error) s in
        let s := assign updatedTask
                   (Types.set_error (messageOr (fun _ => "Unknown error") error)) s in
        set id updatedTask s
    | None => s
    end in
  let thrown :=
    match error with
    | CompletionTimeoutError _ | CompletionCancelledError _ => error
    | _ =>
        if signalAborted call s then Types.newCompletionCancelledError
        else McpError InvalidRequest
               ("OpenAI API error: " ++ messageOr (fun rendering => rendering) error)
    end in
  (Throws thrown, complete_finally id s).

(** Lines 240 to 253: the result built from the response; reading
    [response.choices[0].text] throws when there is no first choice. *)
Definition completionResult (m : string) (response : OpenAI.Completion)
  : Outcome Types.CompletionResponse :=
  match OpenAI.choices response !! 0%nat with
  | None => Throws (OtherError (cannot_read "undefined" "text"))
  | Some choice =>
      Returns
        {| Types.text :=
             match OpenAI.text choice with
             | Some s => if truthy (JsString s) then s else ""
             | None => ""
             end;
           Types.model := m;
           Types.finish_reason :=
             match OpenAI.finish_reason choice with
             | Some s => if truthy (JsString s) then Some s else None
             | None => None
             end;
           Types.usage :=
             match OpenAI.usage response with
             | Some u =>
                 Some {| Types.prompt_tokens := OpenAI.prompt_tokens u;
                         Types.completion_tokens := OpenAI.completion_tokens u;
                         Types.total_tokens := OpenAI.total_tokens u |}
             | None => None
             end |}
  end.

(** The rest of the [try] block once the race has resolved with a
    response, followed by the [finally] block. *)
Definition complete_resolved (id : string) (call : nat) (response : OpenAI.Completion) (s : t)
  : Outcome Types.CompletionResponse * t :=
  match completionResult (model s) response with
  | Throws error => complete_catch id call error s
  | Returns r =>
      let s :=
        match get id s with
        | Some updatedTask =>
            let s := assign updatedTask (Types.set_status CompletionStatusEnum.Complete) s in
            let s := assign updatedTask (Types.set_result r) s in
            let s := assign updatedTask (Types.set_progress 100) s in
            set id updatedTask s
        | None => s
        end in
      (Returns r, complete_finally id s)
  end.

(** *** [handleCompleteTool] *)

Definition textContent (s : string) : Protocol.CallToolResult :=
  {| Protocol.content := [ {| Protocol.type := "text"; Protocol.text := s |} ] |}.

Definition timedOutText : string :=
  "The completion request timed out. Please try again with a shorter prompt or fewer tokens.".
Definition cancelledText : string := "The request was cancelled.".

(** Lines 163 to 196: what [handleCompleteTool] makes of the outcome of
    [complete]. *)
Definition handleCompleteTool_answer (r : Outcome Types.CompletionResponse)
  : Outcome Protocol.CallToolResult :=
  match r with
  | Returns result => Returns (textContent (Types.text result))
  | Throws (CompletionTimeoutError _) => Returns (textContent timedOutText)
  | Throws (CompletionCancelledError _) => Returns (textContent cancelledText)
  | Throws error => Throws error
  end.

Definition respond (call : nat) (r : Outcome Types.CompletionResponse) (s : t) : t :=
  with_calls (alter (set_answer (handleCompleteTool_answer r)) call (calls s)) s.

(** Lines 149 to 161, with the identifier that [uuidv4()] produced: either
    the promise is rejected at once, or the activation that now awaits
    [complete]. *)
Definition handleCompleteTool (args : JsValue) (uuid : string) (s : t)
  : Outcome nat * t :=
  match Utils.isValidCompletionArgs args with
  | Throws e => (Throws e, s)
  | Returns false => (Throws (McpError InvalidParams "Invalid completion arguments"), s)
  | Returns true =>
      let '(call, s) := complete_start uuid args s in
      (Returns call, s)
  end.

(** The handler of [CallToolRequestSchema]. *)
Definition callTool (name : string) (arguments : JsValue) (uuid : string) (s : t)
  : Outcome nat * t :=
  if negb (String.eqb name "complete")
  then (Throws (McpError MethodNotFound ("Unknown tool: " ++ name)), s)
  else handleCompleteTool (if truthy arguments then arguments else JsObject []) uuid s.

(** *** Settlement of [Promise.race]

    The first settlement of either promise resumes [complete]; a later one
    finds the race settled and does nothing. *)
Definition settle (call : nat) (s : t) : t :=
  with_calls (alter set_settled call (calls s)) s.

Definition raceResolves (call : nat) (response : OpenAI.Completion) (s : t) : t :=
  match calls s !! call with
  | Some c =>
      if settled c then s
      else
        let '(r, s) := complete_resolved (taskId c) call response (settle call s) in
        respond call r s
  | None => s
  end.

Definition raceRejects (call : nat) (error : JsError) (s : t) : t :=
  match calls s !! call with
  | Some c =>
      if settled c then s
      else
        let '(r, s) := complete_catch (taskId c) call error (settle call s) in
        respond call r s
  | None => s
  end.

(** *** The timer callbacks *)

(** Lines 322 to 327. *)
Definition timeoutMark (id : string) (s : t) : t :=
  match get id s with
  | Some task =>
      let s := assign task (Types.set_status CompletionStatusEnum.Error) s in
      let s := assign task (Types.set_error "Completion timed out") s in
      set id task s
  | None => s
  end.

(** The callback of [createTimeoutPromise]: the mark, then
    [reject(new CompletionTimeoutError())]. *)
Definition timeoutCallback (id : string) (call : nat) (s : t) : t :=
  raceRejects call Types.newCompletionTimeoutError (timeoutMark id s).

Definition runTimer (callback : Timer) (s : t) : t :=
  match callback with
  | TimeoutTimer id call => timeoutCallback id call s
  | CleanupTimer id => remove id s
  end.

(** *** [cancelTask] *)

Definition cancelTask (id : string) (s : t) : bool * t :=
  match get id s with
  | Some ref =>
      match object ref s with
      | Some task =>
          if negb (bool_decide (Types.status task = CompletionStatusEnum.Complete))
             && negb (bool_decide (Types.status task = CompletionStatusEnum.Error))
          then
            let s := assign ref Types.abort s in
            let s := assign ref (Types.set_status CompletionStatusEnum.Error) s in
            let s := assign ref (Types.set_error "Task cancelled by user") s in
            (true, set id ref s)
          else (false, s)
      | None => (false, s)
      end
  | None => (false, s)
  end.

(** *** The event loop *)

(** What can happen to the server: a tool call arrives (with the identifier
    [uuidv4()] draws for it); the outbound call of an activation resolves
    or rejects; a pending timer fires; the host calls [cancelTask]; time
    passes. *)
Inductive Event : Type :=
| CallTool (name : string) (arguments : JsValue) (uuid : string)
| ApiResolves (call : nat) (response : OpenAI.Completion)
| ApiRejects (call : nat) (error : JsError)
| TimerFires (k : nat)
| CancelTask (id : string)
| Elapse (ms : Z).

Definition handle (e : Event) (s : t) : t :=
  match e with
  | CallTool name arguments uuid => (callTool name arguments uuid s).2
  | ApiResolves call response => raceResolves call response s
  | ApiRejects call error => raceRejects call error s
  | TimerFires k =>
      match timers s !! k with
      | Some (_, callback) => runTimer callback (with_timers (delete k (timers s)) s)
      | None => s
      end
  | CancelTask id => (cancelTask id s).2
  | Elapse ms => with_now (now s + ms) s
  end.

(** When an event can happen: identifiers are never drawn twice; only an
    outbound call that was issued settles; a timer fires no earlier than
    it is due; time does not run backwards. *)
Definition enabled (e : Event) (s : t) : Prop :=
  match e with
  | CallTool _ _ uuid => uuid ∉ (taskId <$> calls s)
  | ApiResolves call _ | ApiRejects call _ => is_Some (calls s !! call)
  | TimerFires k => ∃ (due : Z) callback, timers s !! k = Some (due, callback) ∧ (due ≤ now s)%Z
  | CancelTask _ => True
  | Elapse ms => (0 ≤ ms)%Z
  end.

(** The states the server reaches from [s0]. *)
Inductive reaches (s0 : t) : t → Prop :=
| reaches_refl : reaches s0 s0
| reaches_step s e : reaches s0 s → enabled e s → reaches s0 (handle e s).

Definition reachable (s : t) : Prop := ∃ m t0, reaches (init m t0) s.

End Server.

(** ** The turns in normal form

    The definitions that the properties below are stated and proved with:
    what they observe of an activation, each turn of the event loop written
    as a composition of a few updates, the invariants of the reachable
    states, and the run of the server that serves as example. *)
Module Turns.
Import Constants Server.

(** *** The validator as a boolean *)

(** The test of one optional parameter. *)
Definition numericb (v : JsValue) : bool :=
  match v with
  | JsUndefined | JsNumber _ => true
  | _ => false
  end.

(** A generation parameter as sent: the caller's value when there is one,
    the default otherwise. *)
Definition sentOrDefault (args : JsValue) (name : string) (d : number) (sent : JsValue) : Prop :=
  (prop args name = JsUndefined → sent = JsNumber d) ∧
  (prop args name ≠ JsUndefined → sent = prop args name).

(** *** What the properties observe of an activation *)

(** Its task identifier, when the activation exists. *)
Definition idOf (s : t) (call : nat) : option string := taskId <$> calls s !! call.

(** Whether its race has settled, that is, whether its [complete] has run
    to its [finally] block. *)
Definition settledAt (s : t) (call : nat) : bool :=
  match calls s !! call with
  | Some c => settled c
  | None => false
  end.

(** Whether its task object is in status Complete or Error. *)
Definition terminalAt (s : t) (call : nat) : bool :=
  match object call s with
  | Some task => CompletionStatusEnum.terminal (Types.status task)
  | None => false
  end.

(** What [handleCompleteTool] answered for it, once it has. *)
Definition answerOf (s : t) (call : nat) : option (Outcome Protocol.CallToolResult) :=
  c ← calls s !! call; answer c.

(** *** The updates of a task *)

(** The guarded update the source performs in four places: read the task
    under [id] and, when there is one, assign to its fields. *)
Definition update (id : string) (f : Types.CompletionTask → Types.CompletionTask) (s : t) : t :=
  match get id s with
  | Some ref => assign ref f s
  | None => s
  end.

(** The assignments of the [catch] block of [complete], of the end of its
    [try] block, of [cancelTask] and of the timeout callback. *)
Definition failed (error : JsError) : Types.CompletionTask → Types.CompletionTask :=
  Types.set_error (messageOr (fun _ => "Unknown error") error)
  ∘ Types.set_status CompletionStatusEnum.Error.

Definition succeeded (r : Types.CompletionResponse) : Types.CompletionTask → Types.CompletionTask :=
  Types.set_progress 100 ∘ Types.set_result r
  ∘ Types.set_status CompletionStatusEnum.Complete.

Definition cancelled : Types.CompletionTask → Types.CompletionTask :=
  Types.set_error "Task cancelled by user"
  ∘ Types.set_status CompletionStatusEnum.Error ∘ Types.abort.

Definition marked : Types.CompletionTask → Types.CompletionTask :=
  Types.set_error "Completion timed out" ∘ Types.set_status CompletionStatusEnum.Error.

(** A function on task objects that leaves its result in a terminal
    state. *)
Definition finishes (f : Types.CompletionTask → Types.CompletionTask) : Prop :=
  ∀ task, CompletionStatusEnum.terminal (Types.status (f task)) = true.

(** *** The turns *)

(** The value [complete] throws from its [catch] block. *)
Definition thrown (aborted : bool) (error : JsError) : JsError :=
  match error with
  | CompletionTimeoutError _ | CompletionCancelledError _ => error
  | _ =>
      if aborted then Types.newCompletionCancelledError
      else McpError InvalidRequest
             ("OpenAI API error: " ++ messageOr (fun rendering => rendering) error)
  end.

(** What [complete] does once its race has settled, with the update of the
    task and the outcome given. *)
Definition finish (call : nat) (id : string)
    (f : Types.CompletionTask → Types.CompletionTask)
    (r : Outcome Types.CompletionResponse) (s : t) : t :=
  respond call r (complete_finally id (update id f (settle call s))).

(** The race settles with a rejection, and with a response. *)
Definition rejected (call : nat) (id : string) (error : JsError) (s : t) : t :=
  finish call id (failed error) (Throws (thrown (signalAborted call s) error)) s.

Definition resolved (call : nat) (id : string) (response : OpenAI.Completion) (s : t) : t :=
  match completionResult (model s) response with
  | Throws error => rejected call id error s
  | Returns r => finish call id (succeeded r) (Returns r) s
  end.

(** The activation a valid tool call creates. *)
Definition newCall (id : string) (s : t) : Call :=
  {| taskId := id;
     task := {| Types.status := CompletionStatusEnum.Processing;
                Types.result := None;
                Types.error := None;
                Types.created_at := now s;
                Types.timeout_at := now s + COMPLETION_TIMEOUT_MS;
                Types.progress := 0;
                Types.abortController := {| Types.aborted := false |} |};
     settled := false;
     answer := None |}.

(** The request [complete] builds from the arguments. *)
Definition requestOf (m : string) (args : JsValue) : OpenAI.CompletionCreateParams :=
  {| OpenAI.model := m;
     OpenAI.prompt := prop args "prompt";
     OpenAI.max_tokens := orDefault (prop args "max_tokens") DEFAULT_MAX_TOKENS;
     OpenAI.temperature := orDefault (prop args "temperature") DEFAULT_TEMPERATURE;
     OpenAI.top_p := orDefault (prop args "top_p") DEFAULT_TOP_P;
     OpenAI.frequency_penalty :=
       orDefault (prop args "frequency_penalty") DEFAULT_FREQUENCY_PENALTY;
     OpenAI.presence_penalty :=
       orDefault (prop args "presence_penalty") DEFAULT_PRESENCE_PENALTY |}.

(** A fired timer leaves the list of pending timers. *)
Definition dropTimer (k : nat) (s : t) : t := with_timers (delete k (timers s)) s.

(** What one turn of the event loop does to the server: nothing (a tool
    call that is refused, a settlement that comes after the race, a
    [cancelTask] that returns false); the start of an activation; the end of
    one, from the outbound call or from the timeout callback; an update of a
    task alone ([cancelTask], a timeout callback that comes after the race);
    a removal; the passing of time. *)
Inductive effect (s : t) : t → Prop :=
| eff_same : effect s s
| eff_start id args :
    id ∉ taskId <$> calls s → effect s (complete_start id args s).2
| eff_finish call id f r :
    idOf s call = Some id → settledAt s call = false → finishes f →
    effect s (finish call id f r s)
| eff_update id f :
    finishes f → effect s (update id f s)
| eff_timeout k d id call f r :
    timers s !! k = Some (d, TimeoutTimer id call) → d ≤ now s →
    idOf s call = Some id → settledAt s call = false → finishes f →
    effect s (finish call id f r (update id marked (dropTimer k s)))
| eff_overdue k d id call :
    timers s !! k = Some (d, TimeoutTimer id call) → d ≤ now s →
    effect s (update id marked (dropTimer k s))
| eff_cleanup k d id :
    timers s !! k = Some (d, CleanupTimer id) → d ≤ now s →
    effect s (remove id (dropTimer k s))
| eff_elapse ms :
    0 ≤ ms → effect s (with_now (now s + ms) s).

(** *** Invariants *)

(** What holds in every state the server reaches. *)
Record wf (s : t) : Prop := {
  (** identifiers are not shared between activations *)
  wf_unique : ∀ i j id, idOf s i = Some id → idOf s j = Some id → i = j;
  (** an activation that still awaits its race has its task registered *)
  wf_registered : ∀ i id,
    idOf s i = Some id → settledAt s i = false → activeTasks s !! id = Some i;
  (** a removal is pending only for activations that have finished *)
  wf_cleanup : ∀ d id,
    (d, CleanupTimer id) ∈ timers s → ∃ i, idOf s i = Some id ∧ settledAt s i = true;
  (** a timeout callback rejects the race of the activation it names *)
  wf_timeout : ∀ d id call,
    (d, TimeoutTimer id call) ∈ timers s → idOf s call = Some id;
  (** the registry holds each task under its own identifier *)
  wf_refs : ∀ id ref, activeTasks s !! id = Some ref → idOf s ref = Some id;
  (** once [complete] has finished, its task is in a terminal state *)
  wf_finished : ∀ i, settledAt s i = true → terminalAt s i = true;
}.




(** *** A run of the server *)

(** The request of the specification's example, a response to it, and a
    response without choices. *)
Definition onceUponATime : JsValue := JsObject [("prompt", JsString "Once upon a time")].

Definition thereWas : OpenAI.Completion :=
  {| OpenAI.choices :=
       [ {| OpenAI.text := Some " there was"; OpenAI.finish_reason := Some "stop" |} ];
     OpenAI.usage :=
       Some {| OpenAI.prompt_tokens := 4 # 1;
               OpenAI.completion_tokens := 3 # 1;
               OpenAI.total_tokens := 7 # 1 |} |}.


(** A response whose first choice has the empty string as finish reason. *)
Definition emptyReason : OpenAI.Completion :=
  {| OpenAI.choices :=
       [ {| OpenAI.text := Some " there was"; OpenAI.finish_reason := Some "" |} ];
     OpenAI.usage := None |}.

(** The server at time 0 and after the tool call, which starts
    activation 0 for the task "task-1". *)
Definition fresh : t := init DEFAULT_MODEL 0.
Definition started : t := handle (CallTool "complete" onceUponATime "task-1") fresh.

(** The response arrives after one second; the timeout timer, which is
    never cleared, fires at 60 seconds, one second before the removal, which
    takes place at 61 seconds. *)
Definition completed : t := handle (ApiResolves 0 thereWas) (handle (Elapse 1000) started).
Definition overwritten : t := handle (TimerFires 0) (handle (Elapse 59000) completed).

(** No response arrives; the timeout timer fires at 60 seconds. *)
Definition timedOut : t := handle (TimerFires 0) (handle (Elapse 60000) started).


End Turns.

(** ** src/index.ts: the tool list and the start of the process *)
Module Index.
Import Constants Server.

(** The schema of one optional generation parameter. *)
Definition parameterSchema (type description : string) (default : number) : JsValue :=
  JsObject [ ("type", JsString type);
             ("description", JsString description);
             ("default", JsNumber default) ].

(** Lines 100 to 134: the [inputSchema] of the tool. *)
Definition inputSchema : JsValue :=
  JsObject
    [ ("type", JsString "object");
      ("properties",
       JsObject
         [ ("prompt",
            JsObject [ ("type", JsString "string");
                       ("description", JsString "The text prompt to complete") ]);
           ("max_tokens",
            parameterSchema "integer" "Maximum tokens to generate" DEFAULT_MAX_TOKENS);
           ("temperature",
            parameterSchema "number" "Controls randomness (0-1)" DEFAULT_TEMPERATURE);
           ("top_p",
            parameterSchema "number" "Controls diversity via nucleus sampling" DEFAULT_TOP_P);
           ("frequency_penalty",
            parameterSchema "number" "Decreases repetition of token sequences"
              DEFAULT_FREQUENCY_PENALTY);
           ("presence_penalty",
            parameterSchema "number" "Increases likelihood of talking about new topics"
              DEFAULT_PRESENCE_PENALTY) ]);
      ("required", JsArray [ JsString "prompt" ]) ].

(** Lines 94 to 138: the answer of the handler of [ListToolsRequestSchema]. *)
Definition listTools : JsValue :=
  JsObject
    [ ("tools",
       JsArray
         [ JsObject
             [ ("name", JsString "complete");
               ("description", JsString "Generate text completions using OpenAI models");
               ("inputSchema", inputSchema) ] ]) ].






End Index.

(** ** The turns, case by case

    The definitions for the properties of whole runs: the turns of the event
    loop with the updates they apply, and what holds of every task, request
    and answer. *)
Module Runs.
Import Constants Server Turns.

(** What one turn of the event loop does, with the update of the task and
    the outcome of [complete] as the source computes them. *)
Inductive turn (s : t) : t → Prop :=
| turn_same : turn s s
| turn_start id args :
    id ∉ taskId <$> calls s → Utils.isValidCompletionArgs args = Returns true →
    turn s (complete_start id args s).2
| turn_resolved call id response :
    idOf s call = Some id → settledAt s call = false →
    turn s (resolved call id response s)
| turn_rejected call id error :
    idOf s call = Some id → settledAt s call = false →
    turn s (rejected call id error s)
| turn_cancel id ref task :
    get id s = Some ref → object ref s = Some task →
    CompletionStatusEnum.terminal (Types.status task) = false →
    turn s (update id cancelled s)
| turn_timeout k d id call :
    timers s !! k = Some (d, TimeoutTimer id call) → d ≤ now s →
    idOf s call = Some id → settledAt s call = false →
    turn s (rejected call id Types.newCompletionTimeoutError
              (update id marked (dropTimer k s)))
| turn_overdue k d id call :
    timers s !! k = Some (d, TimeoutTimer id call) → d ≤ now s →
    settledAt s call = true →
    turn s (update id marked (dropTimer k s))
| turn_cleanup k d id :
    timers s !! k = Some (d, CleanupTimer id) → d ≤ now s →
    turn s (remove id (dropTimer k s))
| turn_elapse ms :
    0 ≤ ms → turn s (with_now (now s + ms) s).

(** The assignments a turn can make to a task of a server configured with
    the model [m]. *)
Inductive assigned (m : string) : (Types.CompletionTask → Types.CompletionTask) → Prop :=
| assigned_failed error : assigned m (failed error)
| assigned_succeeded response r :
    completionResult m response = Returns r → assigned m (succeeded r)
| assigned_cancelled : assigned m cancelled
| assigned_marked : assigned m marked
| assigned_timed_out : assigned m (failed Types.newCompletionTimeoutError ∘ marked).

(** The status of a task and its other fields, as far as they agree. *)
Record statusOk (task : Types.CompletionTask) : Prop := {
  never_pending : Types.status task ≠ CompletionStatusEnum.Pending;
  processing_clean :
    Types.status task = CompletionStatusEnum.Processing →
    Types.result task = None ∧ Types.error task = None ∧ Types.progress task = 0 ∧
    Types.aborted (Types.abortController task) = false;
  complete_has_result :
    Types.status task = CompletionStatusEnum.Complete →
    is_Some (Types.result task) ∧ Types.progress task = 100;
  error_has_message :
    Types.status task = CompletionStatusEnum.Error → is_Some (Types.error task);
}.

(** The progress of a task, its result and its two timestamps. *)
Record progressOk (m : string) (task : Types.CompletionTask) : Prop := {
  coarse :
    (Types.progress task = 0 ∧ Types.result task = None)
    ∨ (Types.progress task = 100 ∧ is_Some (Types.result task));
  result_model : ∀ r, Types.result task = Some r → Types.model r = m;
}.

(** A request as the HTTP client expects it: the configured model, a string
    as prompt and numbers as generation parameters. *)
Definition isNumber (v : JsValue) : Prop := ∃ n, v = JsNumber n.

Record wellTyped (m : string) (request : OpenAI.CompletionCreateParams) : Prop := {
  typed_model : OpenAI.model request = m;
  typed_prompt : ∃ p, OpenAI.prompt request = JsString p;
  typed_max_tokens : isNumber (OpenAI.max_tokens request);
  typed_temperature : isNumber (OpenAI.temperature request);
  typed_top_p : isNumber (OpenAI.top_p request);
  typed_frequency_penalty : isNumber (OpenAI.frequency_penalty request);
  typed_presence_penalty : isNumber (OpenAI.presence_penalty request);
}.

(** The generation parameter of a request under its name. *)
Definition parameter (request : OpenAI.CompletionCreateParams) (name : string) : JsValue :=
  if String.eqb name "max_tokens" then OpenAI.max_tokens request
  else if String.eqb name "temperature" then OpenAI.temperature request
  else if String.eqb name "top_p" then OpenAI.top_p request
  else if String.eqb name "frequency_penalty" then OpenAI.frequency_penalty request
  else if String.eqb name "presence_penalty" then OpenAI.presence_penalty request
  else JsUndefined.

(** The answers a caller of the tool can get once an activation has
    started: a text, or the protocol error that wraps an upstream error. *)
Definition answered (a : Outcome Protocol.CallToolResult) : Prop :=
  (∃ text, a = Returns (textContent text))
  ∨ (∃ message, a = Throws (McpError InvalidRequest ("OpenAI API error: " ++ message))).

(** What [handleCompleteTool] answers when [complete] has thrown from its
    [catch] block. *)
Definition failureAnswer (aborted : bool) (error : JsError) : Outcome Protocol.CallToolResult :=
  match error with
  | CompletionTimeoutError _ => Returns (textContent timedOutText)
  | CompletionCancelledError _ => Returns (textContent cancelledText)
  | _ =>
      if aborted then Returns (textContent cancelledText)
      else Throws (McpError InvalidRequest
                     ("OpenAI API error: " ++ messageOr (fun rendering => rendering) error))
  end.

(** Every task in the registry is that of an activation that still awaits
    its race, or one whose removal is pending. *)
Definition accounted (s : t) : Prop :=
  ∀ id ref, get id s = Some ref →
    settledAt s ref = false ∨ ∃ d, (d, CleanupTimer id) ∈ timers s.

(** Every activation that still awaits its race has its timeout timer
    pending, due within [COMPLETION_TIMEOUT_MS]. *)
Definition guarded (s : t) : Prop :=
  ∀ call id, idOf s call = Some id → settledAt s call = false →
    ∃ d, (d, TimeoutTimer id call) ∈ timers s ∧ d ≤ now s + COMPLETION_TIMEOUT_MS.

(** The names of the tools in the answer to [ListToolsRequestSchema]. *)
Definition toolNames : list JsValue :=
  match prop Index.listTools "tools" with
  | JsArray tools => (fun tool => prop tool "name") <$> tools
  | _ => []
  end.

End Runs.

(** * Properties *)

(** ** The parameter validator *)
Module UtilsFacts.
Import Utils Turns.

Lemma numericb_spec v : numericb v = true ↔ numericIfPresent v.
Proof.
  unfold numericIfPresent. split.
  - destruct v; simpl; intros H; try discriminate; eauto.
  - intros [-> | [n ->]]; reflexivity.
Qed.

Lemma checkOptional_object params fields :
  checkOptional params (JsObject fields)
  = Returns (forallb (fun p => numericb (field fields p)) params).
Proof.
  induction params as [| p rest IH]; [reflexivity |].
  cbn [checkOptional getProp prop mbind Outcome_bind forallb].
  rewrite IH. destruct (field fields p); reflexivity.
Qed.

Lemma stringb_spec v : String.eqb (typeof v) "string" = true ↔ ∃ s, v = JsString s.
Proof.
  split.
  - destruct v; simpl; intros H; try discriminate; eauto.
  - intros [s ->]; reflexivity.
Qed.

(** The validator as one boolean expression on an object. *)
Lemma isValidCompletionArgs_object fields :
  isValidCompletionArgs (JsObject fields)
  = Returns (String.eqb (typeof (field fields "prompt")) "string"
             && forallb (fun p => numericb (field fields p)) optionalNumericParams).
Proof.
  unfold isValidCompletionArgs.
  cbn [typeof String.eqb Ascii.eqb Bool.eqb negb orb getProp prop mbind Outcome_bind].
  rewrite checkOptional_object.
  destruct (String.eqb (typeof (field fields "prompt")) "string"); reflexivity.
Qed.

(** A field under a name that is not read does not change what is read. *)
Lemma field_extra before after name value p :
  p ≠ name →
  field (before ++ (name, value) :: after) p = field (before ++ after) p.
Proof.
  intros Hne. induction before as [| [k v] before IH]; simpl.
  - destruct (String.eqb_spec name p); congruence.
  - rewrite IH. reflexivity.
Qed.

(** The validator returns, and true exactly on the well-shaped values. *)
Lemma isValidCompletionArgs_wellShaped args :
  ∃ b, isValidCompletionArgs args = Returns b ∧ (b = true ↔ wellShaped args).
Proof.
  unfold wellShaped.
  destruct args as [| | b | n | s | items | fields];
    try (exists false; split; [reflexivity |];
         split; [discriminate | intros [Hty _]; simpl in Hty; discriminate]).
  - exists false. split; [reflexivity |].
    split; [discriminate | intros (_ & Hnull & _); congruence].
  - exists false. split; [reflexivity |].
    split; [discriminate | intros (_ & _ & [s Hs] & _); discriminate].
  - eexists. split; [apply isValidCompletionArgs_object |].
    cbn [prop forallb optionalNumericParams].
    rewrite !andb_true_iff, stringb_spec, !numericb_spec.
    split.
    + intros (Hp & H1 & H2 & H3 & H4 & H5 & _). repeat split; try done.
    + intros (_ & _ & Hp & H1 & H2 & H3 & H4 & H5). repeat split; done.
Qed.

Lemma isValidCompletionArgs_extra before after name value :
  name ∉ checkedNames →
  isValidCompletionArgs (JsObject (before ++ (name, value) :: after))
  = isValidCompletionArgs (JsObject (before ++ after)).
Proof.
  intros Hname. rewrite !isValidCompletionArgs_object.
  assert (Hread : ∀ p, p ∈ checkedNames →
            field (before ++ (name, value) :: after) p = field (before ++ after) p).
  { intros p Hp. apply field_extra. intros ->. contradiction. }
  unfold checkedNames, optionalNumericParams in *. cbn [forallb].
  rewrite !Hread by (repeat constructor). reflexivity.
Qed.

(** C5. For every input value the validator returns (it never throws), and
    it returns true exactly when the value is a non-null object whose
    [prompt] is a string and whose [max_tokens], [temperature], [top_p],
    [frequency_penalty] and [presence_penalty], when present, are numbers;
    a field under any other name changes nothing. *)
Theorem isValidCompletionArgs_correct :
  (∀ args, ∃ b, isValidCompletionArgs args = Returns b ∧ (b = true ↔ wellShaped args)) ∧
  (∀ before after name value,
      name ∉ checkedNames →
      isValidCompletionArgs (JsObject (before ++ (name, value) :: after))
      = isValidCompletionArgs (JsObject (before ++ after))).
Proof.
  split; [apply isValidCompletionArgs_wellShaped | apply isValidCompletionArgs_extra].
Qed.

(** The request of the specification's example is valid. *)
Lemma isValidCompletionArgs_correct_example :
  isValidCompletionArgs (JsObject [("prompt", JsString "Once upon a time")]) = Returns true.
Proof.
  destruct isValidCompletionArgs_correct as [Hvalid _].
  destruct (Hvalid (JsObject [("prompt", JsString "Once upon a time")])) as (b & Hb & Hiff).
  assert (b = true) as ->; [| exact Hb].
  apply Hiff. repeat split; try (left; reflexivity); [discriminate | by eexists].
Defined.

End UtilsFacts.

(** ** The server: how each turn changes the state *)
Module ServerFacts.
Import Constants Server Turns.

(** [this.activeTasks.set(taskId, task)] with the task just read from
    [taskId] leaves the registry as it is. *)
Lemma set_same id ref s : get id s = Some ref → set id ref s = s.
Proof.
  unfold get, set, with_activeTasks. intros H.
  rewrite (insert_id _ _ _ H). by destruct s.
Qed.

Lemma assign_assign ref f g s :
  assign ref f (assign ref g s) = assign ref (f ∘ g) s.
Proof.
  unfold assign, with_calls; simpl. f_equal.
  rewrite list_alter_alter_eq. apply list_alter_ext; done.
Qed.

Lemma timeoutMark_update id s :
  timeoutMark id s
  = update id (Types.set_error "Completion timed out"
               ∘ Types.set_status CompletionStatusEnum.Error) s.
Proof.
  unfold timeoutMark, update. destruct (get id s) as [ref |] eqn:Hget; [| done].
  rewrite set_same by done. apply assign_assign.
Qed.

Lemma signalAborted_assign call ref f s :
  (∀ task, Types.abortController (f task) = Types.abortController task) →
  signalAborted call (assign ref f s) = signalAborted call s.
Proof.
  intros Hf. unfold signalAborted, object, assign; simpl.
  rewrite list_lookup_alter. case_decide; [subst |done].
  destruct (calls s !! call) as [c |]; simpl; [| done].
  by rewrite Hf.
Qed.

Lemma signalAborted_update call id f s :
  (∀ task, Types.abortController (f task) = Types.abortController task) →
  signalAborted call (update id f s) = signalAborted call s.
Proof.
  intros Hf. unfold update. destruct (get id s); [| done].
  by apply signalAborted_assign.
Qed.

Lemma complete_catch_eq id call error s :
  complete_catch id call error s
  = (Throws (thrown (signalAborted call s) error),
     complete_finally id (update id (failed error) s)).
Proof.
  unfold complete_catch.
  assert (Hs : match get id s with
               | Some updatedTask =>
                   set id updatedTask
                     (assign updatedTask
                        (Types.set_error (messageOr (fun _ => "Unknown error") error))
                        (assign updatedTask (Types.set_status CompletionStatusEnum.Error) s))
               | None => s
               end = update id (failed error) s).
  { unfold update. destruct (get id s) as [ref |] eqn:Hget; [| done].
    rewrite set_same by done. apply assign_assign. }
  rewrite Hs. rewrite signalAborted_update by done. reflexivity.
Qed.

Lemma complete_resolved_eq id call response s :
  complete_resolved id call response s
  = match completionResult (model s) response with
    | Throws error =>
        (Throws (thrown (signalAborted call s) error),
         complete_finally id (update id (failed error) s))
    | Returns r => (Returns r, complete_finally id (update id (succeeded r) s))
    end.
Proof.
  unfold complete_resolved.
  destruct (completionResult (model s) response) as [r | error].
  - f_equal. f_equal. unfold update.
    destruct (get id s) as [ref |] eqn:Hget; [| done].
    rewrite set_same by done. rewrite !assign_assign. reflexivity.
  - apply complete_catch_eq.
Qed.

(** *** What the properties observe of an activation *)

Lemma failed_finishes error : finishes (failed error).
Proof. intros task; reflexivity. Qed.
Lemma succeeded_finishes r : finishes (succeeded r).
Proof. intros task; reflexivity. Qed.

Section Observations.
Context (s : t).

Lemma activeTasks_update id f : activeTasks (update id f s) = activeTasks s.
Proof. unfold update. by destruct (get id s). Qed.
Lemma timers_update id f : timers (update id f s) = timers s.
Proof. unfold update. by destruct (get id s). Qed.
Lemma now_update id f : now (update id f s) = now s.
Proof. unfold update. by destruct (get id s). Qed.
Lemma idOf_assign ref f call : idOf (assign ref f s) call = idOf s call.
Proof.
  unfold idOf, assign; simpl. rewrite list_lookup_alter.
  case_decide; [subst |done]. by destruct (calls s !! call).
Qed.
Lemma settledAt_assign ref f call : settledAt (assign ref f s) call = settledAt s call.
Proof.
  unfold settledAt, assign; simpl. rewrite list_lookup_alter.
  case_decide; [subst |done]. by destruct (calls s !! call).
Qed.
Lemma object_assign ref f call :
  object call (assign ref f s)
  = if decide (ref = call) then f <$> object call s else object call s.
Proof.
  unfold object, assign; simpl. rewrite list_lookup_alter.
  case_decide; [subst |done]. by destruct (calls s !! call).
Qed.

Lemma idOf_update id f call : idOf (update id f s) call = idOf s call.
Proof. unfold update. destruct (get id s); [apply idOf_assign | done]. Qed.
Lemma settledAt_update id f call : settledAt (update id f s) call = settledAt s call.
Proof. unfold update. destruct (get id s); [apply settledAt_assign | done]. Qed.
Lemma object_update id f call :
  object call (update id f s)
  = if decide (get id s = Some call) then f <$> object call s else object call s.
Proof.
  unfold update. destruct (get id s) as [ref |] eqn:Hget.
  - rewrite object_assign. repeat case_decide; congruence.
  - by case_decide.
Qed.

Lemma terminalAt_update id f call :
  finishes f →
  terminalAt (update id f s) call
  = if decide (get id s = Some call ∧ is_Some (idOf s call)) then true
    else terminalAt s call.
Proof.
  intros Hf. unfold terminalAt, idOf. rewrite object_update. unfold object.
  destruct (calls s !! call) as [c |] eqn:Hc; simpl;
    destruct (decide (get id s = Some call)) as [Hg | Hg];
    destruct (decide (_ ∧ _)) as [[Ha [x Hb]] | Hn]; try done.
  destruct Hn. eauto.
Qed.

Lemma idOf_settle k call : idOf (settle k s) call = idOf s call.
Proof.
  unfold idOf, settle; simpl. rewrite list_lookup_alter.
  case_decide; [subst |done]. by destruct (calls s !! call).
Qed.
Lemma settledAt_settle k call :
  settledAt (settle k s) call
  = if decide (k = call ∧ is_Some (idOf s call)) then true else settledAt s call.
Proof.
  unfold settledAt, idOf, settle; simpl. rewrite list_lookup_alter.
  destruct (decide (k = call)) as [-> | Hk];
    destruct (calls s !! call) as [c |] eqn:Hc; simpl;
    destruct (decide (_ ∧ _)) as [[Ha [x Hb]] | Hn]; try done.
  destruct Hn. eauto.
Qed.
Lemma object_settle k call : object call (settle k s) = object call s.
Proof.
  unfold object, settle; simpl. rewrite list_lookup_alter.
  case_decide; [subst |done]. by destruct (calls s !! call).
Qed.

Lemma idOf_respond k r call : idOf (respond k r s) call = idOf s call.
Proof.
  unfold idOf, respond; simpl. rewrite list_lookup_alter.
  case_decide; [subst |done]. by destruct (calls s !! call).
Qed.
Lemma settledAt_respond k r call : settledAt (respond k r s) call = settledAt s call.
Proof.
  unfold settledAt, respond; simpl. rewrite list_lookup_alter.
  case_decide; [subst |done]. by destruct (calls s !! call).
Qed.
Lemma object_respond k r call : object call (respond k r s) = object call s.
Proof.
  unfold object, respond; simpl. rewrite list_lookup_alter.
  case_decide; [subst |done]. by destruct (calls s !! call).
Qed.

Lemma idOf_finally id call : idOf (complete_finally id s) call = idOf s call.
Proof. reflexivity. Qed.
Lemma settledAt_finally id call : settledAt (complete_finally id s) call = settledAt s call.
Proof. reflexivity. Qed.
Lemma object_finally id call : object call (complete_finally id s) = object call s.
Proof. reflexivity. Qed.
Lemma activeTasks_finally id : activeTasks (complete_finally id s) = activeTasks s.
Proof. reflexivity. Qed.
Lemma now_finally id : now (complete_finally id s) = now s.
Proof. reflexivity. Qed.
Lemma timers_finally id :
  timers (complete_finally id s)
  = (timers s ++ [(now s + COMPLETION_TIMEOUT_MS, CleanupTimer id)])%list.
Proof. reflexivity. Qed.

Lemma activeTasks_settle k : activeTasks (settle k s) = activeTasks s.
Proof. reflexivity. Qed.
Lemma timers_settle k : timers (settle k s) = timers s.
Proof. reflexivity. Qed.
Lemma now_settle k : now (settle k s) = now s.
Proof. reflexivity. Qed.
Lemma get_settle id k : get id (settle k s) = get id s.
Proof. reflexivity. Qed.

Lemma activeTasks_respond k r : activeTasks (respond k r s) = activeTasks s.
Proof. reflexivity. Qed.
Lemma timers_respond k r : timers (respond k r s) = timers s.
Proof. reflexivity. Qed.
Lemma now_respond k r : now (respond k r s) = now s.
Proof. reflexivity. Qed.

End Observations.

Lemma terminalAt_respond k r s call : terminalAt (respond k r s) call = terminalAt s call.
Proof. unfold terminalAt. by rewrite object_respond. Qed.
Lemma terminalAt_settle k s call : terminalAt (settle k s) call = terminalAt s call.
Proof. unfold terminalAt. by rewrite object_settle. Qed.
Lemma terminalAt_finally id s call : terminalAt (complete_finally id s) call = terminalAt s call.
Proof. reflexivity. Qed.

Create Rewrite HintDb server.
#[export] Hint Rewrite
  activeTasks_update timers_update now_update idOf_update settledAt_update
  idOf_assign settledAt_assign
  idOf_finally settledAt_finally activeTasks_finally now_finally timers_finally
  terminalAt_finally
  idOf_settle settledAt_settle activeTasks_settle timers_settle now_settle get_settle
  terminalAt_settle
  idOf_respond settledAt_respond activeTasks_respond timers_respond now_respond
  terminalAt_respond : server.

Lemma signalAborted_settle call k s : signalAborted call (settle k s) = signalAborted call s.
Proof. unfold signalAborted. by rewrite object_settle. Qed.

(** *** The turns in normal form *)

Lemma raceRejects_eq call error s :
  raceRejects call error s
  = match calls s !! call with
    | Some c => if settled c then s else rejected call (taskId c) error s
    | None => s
    end.
Proof.
  unfold raceRejects. destruct (calls s !! call) as [c |]; [| done].
  destruct (settled c); [done |].
  rewrite complete_catch_eq, signalAborted_settle. reflexivity.
Qed.

Lemma raceResolves_eq call response s :
  raceResolves call response s
  = match calls s !! call with
    | Some c => if settled c then s else resolved call (taskId c) response s
    | None => s
    end.
Proof.
  unfold raceResolves. destruct (calls s !! call) as [c |]; [| done].
  destruct (settled c); [done |].
  rewrite complete_resolved_eq, signalAborted_settle. unfold resolved.
  change (model (settle call s)) with (model s).
  by destruct (completionResult (model s) response).
Qed.

Lemma raceRejects_cases call error s :
  raceRejects call error s
  = match idOf s call with
    | Some id => if settledAt s call then s else rejected call id error s
    | None => s
    end.
Proof.
  rewrite raceRejects_eq. unfold idOf, settledAt.
  by destruct (calls s !! call).
Qed.

Lemma raceResolves_cases call response s :
  raceResolves call response s
  = match idOf s call with
    | Some id => if settledAt s call then s else resolved call id response s
    | None => s
    end.
Proof.
  rewrite raceResolves_eq. unfold idOf, settledAt.
  by destruct (calls s !! call).
Qed.

Lemma cancelled_finishes : finishes cancelled.
Proof. intros task; reflexivity. Qed.

Lemma cancelTask_eq id s :
  cancelTask id s
  = match get id s with
    | Some ref =>
        match object ref s with
        | Some task =>
            if CompletionStatusEnum.terminal (Types.status task) then (false, s)
            else (true, update id cancelled s)
        | None => (false, s)
        end
    | None => (false, s)
    end.
Proof.
  unfold cancelTask, update. destruct (get id s) as [ref |] eqn:Hget; [| done].
  destruct (object ref s) as [task |]; [| done].
  destruct (Types.status task); simpl; try done;
    rewrite set_same by done; by rewrite !assign_assign.
Qed.

Lemma complete_start_eq id args s :
  complete_start id args s
  = (length (calls s),
     {| model := model s;
        activeTasks := <[id := length (calls s)]> (activeTasks s);
        calls := calls s ++ [newCall id s];
        requests := requests s ++ [requestOf (model s) args];
        timers := timers s ++ [(now s + COMPLETION_TIMEOUT_MS, TimeoutTimer id (length (calls s)))];
        now := now s |}).
Proof.
  unfold complete_start, complete_register, complete_issue, createTimeoutPromise,
    setTimeout, makeApiCall, set, assign, with_calls, with_activeTasks,
    with_requests, with_timers; simpl.
  f_equal. f_equal.
  - by rewrite insert_insert_eq.
  - rewrite <- (Nat.add_0_r (length (calls s))) at 1.
    by rewrite alter_app_r.
Qed.

(** *** Well-formed states *)

Lemma wf_init m t0 : wf (init m t0).
Proof.
  split; unfold idOf, settledAt, init; simpl; try done.
  - intros d id H. by apply elem_of_nil in H.
  - intros d id call H. by apply elem_of_nil in H.
Qed.

Lemma wf_update id f s : finishes f → wf s → wf (update id f s).
Proof.
  intros Hf [W1 W2 W3 W4 W5 W6]. split.
  - intros i j x. rewrite !idOf_update. apply W1.
  - intros i x. rewrite idOf_update, settledAt_update, activeTasks_update. apply W2.
  - intros d x Hin. rewrite timers_update in Hin.
    destruct (W3 _ _ Hin) as (i & Hi & Hs). exists i.
    by rewrite idOf_update, settledAt_update.
  - intros d x call. rewrite timers_update, idOf_update. apply W4.
  - intros x ref. rewrite activeTasks_update, idOf_update. apply W5.
  - intros i. rewrite settledAt_update, terminalAt_update by done.
    case_decide; auto.
Qed.

Lemma wf_finish call id f r s :
  finishes f → idOf s call = Some id → settledAt s call = false →
  wf s → wf (finish call id f r s).
Proof.
  intros Hf Hid Hunsettled [W1 W2 W3 W4 W5 W6].
  assert (Hget : get id s = Some call) by (by apply W2).
  assert (Hcall : is_Some (idOf s call)) by (rewrite Hid; eauto).
  unfold finish. split.
  - intros i j x. autorewrite with server. apply W1.
  - intros i x. autorewrite with server. case_decide; [done |]. apply W2.
  - intros d x. autorewrite with server.
    rewrite elem_of_app, list_elem_of_singleton. intros [Hin | Heq].
    + destruct (W3 _ _ Hin) as (i & Hi & Hs). exists i.
      autorewrite with server. split; [done |]. by case_decide.
    + injection Heq as _ ->. exists call. autorewrite with server.
      split; [done |]. case_decide as Hn; [done |]. by destruct Hn.
  - intros d x k. autorewrite with server.
    rewrite elem_of_app, list_elem_of_singleton.
    intros [Hin | Heq]; [by eapply W4 | done].
  - intros x ref. autorewrite with server. apply W5.
  - intros i. autorewrite with server. rewrite terminalAt_update by done.
    autorewrite with server.
    case_decide as Hc.
    + destruct Hc as [-> _]. intros _. case_decide as Hn; [done |]. by destruct Hn.
    + intros Hs. case_decide; [done |]. by apply W6.
Qed.

Lemma wf_dropTimer k s : wf s → wf (dropTimer k s).
Proof.
  intros [W1 W2 W3 W4 W5 W6]. split; try done.
  - intros d id Hin. apply list_elem_of_delete_inv in Hin. by eapply W3.
  - intros d id call Hin. apply list_elem_of_delete_inv in Hin. by eapply W4.
Qed.

Lemma wf_remove k d id s :
  timers s !! k = Some (d, CleanupTimer id) → wf s → wf (remove id (dropTimer k s)).
Proof.
  intros Hk Hwf. pose proof (wf_dropTimer k s Hwf) as [W1 W2 W3 W4 W5 W6].
  assert (Hin : (d, CleanupTimer id) ∈ timers s) by (by eapply list_elem_of_lookup_2).
  split; try done.
  - intros i x Hi Hs. unfold remove; simpl.
    destruct (decide (id = x)) as [-> | Hne].
    + destruct (wf_cleanup s Hwf _ _ Hin) as (j & Hj & Hs').
      assert (i = j) as -> by (by eapply W1).
      change (settledAt s j = false) in Hs. congruence.
    + rewrite lookup_delete_ne by done. by apply W2.
  - intros x ref. unfold remove; simpl. intros [_ H]%lookup_delete_Some. by apply W5.
Qed.

Lemma wf_elapse ms s : wf s → wf (with_now (now s + ms) s).
Proof. by intros []. Qed.

Lemma idOf_start id args s call :
  idOf (complete_start id args s).2 call
  = if decide (call = length (calls s)) then Some id else idOf s call.
Proof.
  rewrite complete_start_eq. unfold idOf; simpl.
  case_decide as Hc.
  - subst. by rewrite list_lookup_middle.
  - destruct (decide (call < length (calls s))%nat).
    + by rewrite lookup_app_l.
    + rewrite !lookup_ge_None_2; [done | lia |]. rewrite length_app; simpl; lia.
Qed.

Lemma settledAt_start id args s call :
  settledAt (complete_start id args s).2 call = settledAt s call.
Proof.
  rewrite complete_start_eq. unfold settledAt; simpl.
  destruct (decide (call < length (calls s))%nat).
  - by rewrite lookup_app_l.
  - rewrite (lookup_ge_None_2 (calls s)) by lia.
    destruct (decide (call = length (calls s))) as [-> | Hne].
    + by rewrite list_lookup_middle.
    + rewrite lookup_ge_None_2; [done |]. rewrite length_app; simpl; lia.
Qed.

Lemma object_start id args s call :
  (call < length (calls s))%nat →
  object call (complete_start id args s).2 = object call s.
Proof.
  intros Hlt. rewrite complete_start_eq. unfold object; simpl.
  by rewrite lookup_app_l.
Qed.

Lemma timers_start id args s :
  timers (complete_start id args s).2
  = (timers s ++ [(now s + COMPLETION_TIMEOUT_MS, TimeoutTimer id (length (calls s)))])%list.
Proof. by rewrite complete_start_eq. Qed.

Lemma activeTasks_start id args s :
  activeTasks (complete_start id args s).2 = <[id := length (calls s)]> (activeTasks s).
Proof. by rewrite complete_start_eq. Qed.

Lemma now_start id args s : now (complete_start id args s).2 = now s.
Proof. by rewrite complete_start_eq. Qed.

Lemma idOf_lt s call id : idOf s call = Some id → (call < length (calls s))%nat.
Proof.
  unfold idOf. destruct (calls s !! call) eqn:H; [| done].
  intros _. by eapply lookup_lt_Some.
Qed.

Lemma settledAt_lt s call : settledAt s call = true → (call < length (calls s))%nat.
Proof.
  unfold settledAt. destruct (calls s !! call) eqn:H; [| done].
  intros _. by eapply lookup_lt_Some.
Qed.

Lemma idOf_elem_of s call id : idOf s call = Some id → id ∈ taskId <$> calls s.
Proof.
  unfold idOf. destruct (calls s !! call) as [c |] eqn:H; [| done].
  intros [= <-]. apply list_elem_of_fmap. exists c. split; [done |].
  by eapply list_elem_of_lookup_2.
Qed.

Lemma wf_start id args s :
  id ∉ taskId <$> calls s → wf s → wf (complete_start id args s).2.
Proof.
  intros Hfresh [W1 W2 W3 W4 W5 W6].
  assert (Hnew : ∀ i, idOf s i = Some id → False).
  { intros i Hi. apply Hfresh. by eapply idOf_elem_of. }
  assert (Hnone : idOf s (length (calls s)) = None).
  { unfold idOf. by rewrite lookup_ge_None_2. }
  split.
  - intros i j x. rewrite !idOf_start.
    repeat case_decide; subst; try done.
    + intros [= <-] Hj. by destruct (Hnew j).
    + intros Hi [= <-]. by destruct (Hnew i).
    + apply W1.
  - intros i x. rewrite idOf_start, settledAt_start, activeTasks_start.
    case_decide as Hi.
    + intros [= <-] _. subst. by rewrite lookup_insert_eq.
    + intros Hx Hs. rewrite lookup_insert_ne; [by apply W2 |].
      intros <-. by destruct (Hnew i).
  - intros d x. rewrite timers_start.
    rewrite elem_of_app, list_elem_of_singleton. intros [Hin | Heq]; [| done].
    destruct (W3 _ _ Hin) as (i & Hi & Hs). exists i.
    rewrite idOf_start, settledAt_start.
    case_decide as Hc; [| done]. subst. congruence.
  - intros d x call. rewrite idOf_start, timers_start.
    rewrite elem_of_app, list_elem_of_singleton. intros [Hin | Heq].
    + case_decide as Hc; [| by eapply W4].
      subst. pose proof (W4 _ _ _ Hin). congruence.
    + injection Heq as _ -> ->. by case_decide.
  - intros x ref. rewrite idOf_start, activeTasks_start.
    intros [[<- <-] | [Hne Hx]]%lookup_insert_Some.
    + by case_decide.
    + case_decide as Hc; [| by apply W5].
      subst. pose proof (W5 _ _ Hx). congruence.
  - intros i. rewrite settledAt_start. intros Hs.
    unfold terminalAt. rewrite object_start by (by apply settledAt_lt).
    by apply W6.
Qed.

Lemma marked_finishes : finishes marked.
Proof. intros task; reflexivity. Qed.

(** *** The effect of one turn of the event loop *)

Lemma rejected_effect call id error s :
  idOf s call = Some id → settledAt s call = false → effect s (rejected call id error s).
Proof. intros. apply eff_finish; auto using failed_finishes. Qed.

Lemma resolved_effect call id response s :
  idOf s call = Some id → settledAt s call = false → effect s (resolved call id response s).
Proof.
  intros. unfold resolved. destruct (completionResult _ _).
  - apply eff_finish; auto using succeeded_finishes.
  - by apply rejected_effect.
Qed.

Lemma handle_effect e s : wf s → enabled e s → effect s (handle e s).
Proof.
  intros Hwf He. destruct e as [name arguments uuid | call response | call error | k | id | ms];
    cbn [handle]; cbn [enabled] in He.
  - unfold callTool.
    destruct (negb _); [constructor |].
    generalize (if truthy arguments then arguments else JsObject []).
    intros args. unfold handleCompleteTool.
    destruct (Utils.isValidCompletionArgs args) as [[] |]; [| constructor ..].
    rewrite (surjective_pairing (complete_start uuid args s)). cbn [snd].
    by apply eff_start.
  - rewrite raceResolves_cases.
    destruct (idOf s call) eqn:Hid; [| constructor].
    destruct (settledAt s call) eqn:Hs; [constructor |]. by apply resolved_effect.
  - rewrite raceRejects_cases.
    destruct (idOf s call) eqn:Hid; [| constructor].
    destruct (settledAt s call) eqn:Hs; [constructor |]. by apply rejected_effect.
  - destruct He as (d & callback & Hk & Hd). rewrite Hk.
    destruct callback as [id call | id]; simpl.
    + unfold timeoutCallback. rewrite timeoutMark_update, raceRejects_cases.
      fold (dropTimer k s). fold marked. rewrite idOf_update, settledAt_update.
      change (idOf (dropTimer k s) call) with (idOf s call).
      change (settledAt (dropTimer k s) call) with (settledAt s call).
      assert (Hid : idOf s call = Some id).
      { eapply wf_timeout; [done |]. by eapply list_elem_of_lookup_2. }
      rewrite Hid. destruct (settledAt s call) eqn:Hs.
      * by econstructor.
      * eapply eff_timeout; eauto using failed_finishes.
    + by econstructor.
  - rewrite cancelTask_eq. destruct (get id s); [| constructor].
    destruct (object _ s); [| constructor].
    destruct (CompletionStatusEnum.terminal _); [constructor |].
    apply eff_update, cancelled_finishes.
  - by constructor.
Qed.

Lemma wf_effect s s' : wf s → effect s s' → wf s'.
Proof.
  intros Hwf Heff. destruct Heff.
  - done.
  - by apply wf_start.
  - by apply wf_finish.
  - by apply wf_update.
  - apply wf_finish; [done | by rewrite idOf_update | by rewrite settledAt_update |].
    apply wf_update; [apply marked_finishes | by apply wf_dropTimer].
  - apply wf_update; [apply marked_finishes | by apply wf_dropTimer].
  - by eapply wf_remove.
  - by apply wf_elapse.
Qed.

Lemma wf_reaches s0 s : wf s0 → reaches s0 s → wf s.
Proof.
  intros H0. induction 1 as [| s e Hreach IH He]; [done |].
  eapply wf_effect; [exact IH |]. by apply handle_effect.
Qed.

Lemma wf_reachable s : reachable s → wf s.
Proof. intros (m & t0 & H). eapply wf_reaches; [apply wf_init | done]. Qed.

(** *** What a turn does to the registry, the timers and the clock *)

Section TurnObservations.
Context (s : t).

Lemma idOf_dropTimer k call : idOf (dropTimer k s) call = idOf s call.
Proof. reflexivity. Qed.
Lemma settledAt_dropTimer k call : settledAt (dropTimer k s) call = settledAt s call.
Proof. reflexivity. Qed.
Lemma terminalAt_dropTimer k call : terminalAt (dropTimer k s) call = terminalAt s call.
Proof. reflexivity. Qed.
Lemma activeTasks_dropTimer k : activeTasks (dropTimer k s) = activeTasks s.
Proof. reflexivity. Qed.
Lemma timers_dropTimer k : timers (dropTimer k s) = delete k (timers s).
Proof. reflexivity. Qed.
Lemma now_dropTimer k : now (dropTimer k s) = now s.
Proof. reflexivity. Qed.

Lemma idOf_remove id call : idOf (remove id s) call = idOf s call.
Proof. reflexivity. Qed.
Lemma settledAt_remove id call : settledAt (remove id s) call = settledAt s call.
Proof. reflexivity. Qed.
Lemma terminalAt_remove id call : terminalAt (remove id s) call = terminalAt s call.
Proof. reflexivity. Qed.
Lemma activeTasks_remove id : activeTasks (remove id s) = delete id (activeTasks s).
Proof. reflexivity. Qed.
Lemma timers_remove id : timers (remove id s) = timers s.
Proof. reflexivity. Qed.
Lemma now_remove id : now (remove id s) = now s.
Proof. reflexivity. Qed.

Lemma idOf_with_now n call : idOf (with_now n s) call = idOf s call.
Proof. reflexivity. Qed.
Lemma settledAt_with_now n call : settledAt (with_now n s) call = settledAt s call.
Proof. reflexivity. Qed.
Lemma terminalAt_with_now n call : terminalAt (with_now n s) call = terminalAt s call.
Proof. reflexivity. Qed.
Lemma activeTasks_with_now n : activeTasks (with_now n s) = activeTasks s.
Proof. reflexivity. Qed.
Lemma timers_with_now n : timers (with_now n s) = timers s.
Proof. reflexivity. Qed.
Lemma now_with_now n : now (with_now n s) = n.
Proof. reflexivity. Qed.

Lemma terminalAt_start id args call :
  terminalAt (complete_start id args s).2 call
  = if decide (call = length (calls s)) then false else terminalAt s call.
Proof.
  rewrite complete_start_eq. unfold terminalAt, object; simpl.
  case_decide as Hc.
  - subst. by rewrite list_lookup_middle.
  - destruct (decide (call < length (calls s))%nat).
    + by rewrite lookup_app_l.
    + rewrite !lookup_ge_None_2; [done | lia |]. rewrite length_app; simpl; lia.
Qed.

Lemma idOf_finish k id f r call : idOf (finish k id f r s) call = idOf s call.
Proof. unfold finish. by autorewrite with server. Qed.
Lemma settledAt_finish k id f r call :
  settledAt (finish k id f r s) call
  = if decide (k = call ∧ is_Some (idOf s call)) then true else settledAt s call.
Proof. unfold finish. by autorewrite with server. Qed.
Lemma activeTasks_finish k id f r : activeTasks (finish k id f r s) = activeTasks s.
Proof. unfold finish. by autorewrite with server. Qed.
Lemma timers_finish k id f r :
  timers (finish k id f r s)
  = (timers s ++ [(now s + COMPLETION_TIMEOUT_MS, CleanupTimer id)])%list.
Proof. unfold finish. by autorewrite with server. Qed.
Lemma now_finish k id f r : now (finish k id f r s) = now s.
Proof. unfold finish. by autorewrite with server. Qed.

End TurnObservations.

#[export] Hint Rewrite
  idOf_dropTimer settledAt_dropTimer terminalAt_dropTimer activeTasks_dropTimer
  timers_dropTimer now_dropTimer
  idOf_remove settledAt_remove terminalAt_remove activeTasks_remove timers_remove now_remove
  idOf_with_now settledAt_with_now terminalAt_with_now activeTasks_with_now
  timers_with_now now_with_now
  idOf_start settledAt_start terminalAt_start activeTasks_start timers_start now_start
  idOf_finish settledAt_finish activeTasks_finish timers_finish now_finish : server.

Lemma elem_of_delete_or {A} (x y : A) (l : list A) (k : nat) :
  x ∈ l → l !! k = Some y → x = y ∨ x ∈ delete k l.
Proof.
  revert k. induction l as [| z l IH]; intros k Hin Hk; [by apply elem_of_nil in Hin |].
  destruct k as [| k]; simpl in *.
  - injection Hk as ->. apply elem_of_cons in Hin. tauto.
  - apply elem_of_cons in Hin as [-> | Hin].
    + right. apply elem_of_cons. by left.
    + destruct (IH k Hin Hk) as [-> | H]; [by left |].
      right. apply elem_of_cons. by right.
Qed.

Section Turn.
Context (s s' : t) (Hwf : wf s) (Heff : effect s s').

Lemma effect_now : now s ≤ now s'.
Proof using Heff. destruct Heff; autorewrite with server; lia. Qed.


Lemma effect_idOf call id : idOf s call = Some id → idOf s' call = Some id.
Proof using Heff.
  destruct Heff; autorewrite with server; try done.
  intros Hid. case_decide; [| done]. subst.
  apply idOf_lt in Hid. lia.
Qed.

Lemma effect_born call :
  idOf s call = None → idOf s' call ≠ None →
  settledAt s' call = false ∧ terminalAt s' call = false.
Proof using Heff.
  destruct Heff; autorewrite with server; intros Hnone Hsome;
    try (by destruct Hsome).
  case_decide; [| by destruct Hsome].
  split; [| done]. unfold settledAt, idOf in *.
  by destruct (calls s !! call).
Qed.





Lemma effect_cleanup_kept d id :
  (d, CleanupTimer id) ∈ timers s →
  (d, CleanupTimer id) ∈ timers s' ∨ activeTasks s' !! id = None.
Proof using Heff.
  intros Hin.
  destruct Heff as [| | | | k d' id' call' f r Hk | k d' id' call' Hk | k d' id' Hk Hd |];
    autorewrite with server; rewrite ?elem_of_app; auto.
  - destruct (elem_of_delete_or _ _ _ _ Hin Hk) as [Heq | Hrest]; [done | auto].
  - destruct (elem_of_delete_or _ _ _ _ Hin Hk) as [Heq | Hrest]; [done | auto].
  - destruct (elem_of_delete_or _ _ _ _ Hin Hk) as [Heq | Hrest]; [| auto].
    injection Heq as -> ->. right. apply lookup_delete_eq.
Qed.

Lemma effect_settles call id :
  idOf s call = Some id → settledAt s call = false → settledAt s' call = true →
  (now s + COMPLETION_TIMEOUT_MS, CleanupTimer id) ∈ timers s' ∧ now s' = now s.
Proof using Heff.
  intros Hid Hs.
  destruct Heff as [| | call' id' f r Hid' | | k d' id' call' f r Hk Hd Hid' | | |];
    autorewrite with server; try congruence.
  - case_decide as Hc; [| congruence]. destruct Hc as [-> _]. intros _.
    split; [| done]. rewrite elem_of_app, list_elem_of_singleton. right. congruence.
  - case_decide as Hc; [| congruence]. destruct Hc as [-> _]. intros _.
    split; [| done]. rewrite elem_of_app, list_elem_of_singleton. right. congruence.
Qed.


End Turn.

End ServerFacts.

(** ** The task lifecycle *)
Module Lifecycle.
Import Constants Server Turns ServerFacts.

Lemma lookupTask_update id f s :
  lookupTask id (update id f s) = f <$> lookupTask id s.
Proof.
  unfold lookupTask. change (get id (update id f s)) with (activeTasks (update id f s) !! id).
  rewrite activeTasks_update. fold (get id s).
  destruct (get id s) as [ref |] eqn:Hget; [| done]. simpl.
  rewrite object_update. by rewrite decide_True.
Qed.

Lemma lookupTask_finish call id f r s :
  get id s = Some call →
  lookupTask id (finish call id f r s) = f <$> object call s.
Proof.
  intros Hget. unfold lookupTask, finish, get in *.
  autorewrite with server. rewrite Hget. simpl.
  rewrite object_respond, object_finally, object_update.
  unfold get. autorewrite with server.
  rewrite decide_True by done. by rewrite object_settle.
Qed.

Lemma answerOf_finish call id f r s :
  is_Some (calls s !! call) →
  answerOf (finish call id f r s) call = Some (handleCompleteTool_answer r).
Proof.
  intros [c Hc]. unfold answerOf, finish, respond; simpl.
  rewrite list_lookup_alter_eq.
  assert (is_Some (calls (update id f (settle call s)) !! call)) as [c' ->]; [| done].
  apply lookup_lt_is_Some. unfold update.
  destruct (get id (settle call s)); simpl; rewrite !length_alter; by eapply lookup_lt_Some.
Qed.

(** *** Cancellation *)

(** C4. [cancelTask(id)] returns true exactly when the registry holds a
    task under [id] whose status is Pending or Processing; it then signals
    the task's cancellation handle and leaves the task in status Error
    with the message "Task cancelled by user", so that a second call
    returns false; when it returns false (no task, or a task that is
    Complete or Error) nothing has changed. *)
Theorem cancelTask_correct id s :
  ((cancelTask id s).1 = true ↔
     ∃ task, lookupTask id s = Some task ∧
             (Types.status task = CompletionStatusEnum.Pending
              ∨ Types.status task = CompletionStatusEnum.Processing)) ∧
  ((cancelTask id s).1 = true →
     ∃ task, lookupTask id (cancelTask id s).2 = Some task ∧
             Types.aborted (Types.abortController task) = true ∧
             Types.status task = CompletionStatusEnum.Error ∧
             Types.error task = Some "Task cancelled by user" ∧
             (cancelTask id (cancelTask id s).2).1 = false) ∧
  ((cancelTask id s).1 = false → (cancelTask id s).2 = s).
Proof.
  rewrite cancelTask_eq.
  destruct (lookupTask id s) as [task |] eqn:Hlook.
  - assert (Hlook' := Hlook). unfold lookupTask in Hlook.
    destruct (get id s) as [ref |] eqn:Hget; [| done]. simpl in Hlook. rewrite Hlook.
    destruct (CompletionStatusEnum.terminal (Types.status task)) eqn:Hterm; simpl.
    + split; [| done]. split; [done |]. intros (task' & [= <-] & [H | H]);
        rewrite H in Hterm; done.
    + split; [| split; [| done]].
      * split; [| done]. intros _. exists task. split; [done |].
        destruct (Types.status task); auto; done.
      * intros _. exists (cancelled task).
        rewrite lookupTask_update, Hlook'. repeat split.
        rewrite cancelTask_eq.
        change (get id (update id cancelled s)) with (activeTasks (update id cancelled s) !! id).
        rewrite activeTasks_update. fold (get id s). rewrite Hget.
        rewrite object_update, decide_True, Hlook by done. reflexivity.
  - unfold lookupTask in Hlook.
    destruct (get id s) as [ref |] eqn:Hget; simpl in *.
    + rewrite Hlook. simpl. split; [| done]. split; [done |]. by intros (task & ? & _).
    + split; [| done]. split; [done |]. by intros (task & ? & _).
Qed.

(** The task of the example run is cancelled once. *)
Lemma cancelTask_correct_example :
  (cancelTask "task-1" started).1 = true ∧
  (cancelTask "task-1" (cancelTask "task-1" started).2).1 = false.
Proof.
  destruct (cancelTask_correct "task-1" started) as (Hiff & Hthen & _).
  assert (Htrue : (cancelTask "task-1" started).1 = true).
  { apply Hiff. exists (task (newCall "task-1" fresh)).
    split; [by vm_compute | by right]. }
  split; [exact Htrue |].
  destruct (Hthen Htrue) as (stored & _ & _ & _ & _ & Hagain). exact Hagain.
Defined.

(** *** From the tool call to the outbound request *)

Lemma handleCompleteTool_valid args uuid s :
  Utils.isValidCompletionArgs args = Returns true →
  handleCompleteTool args uuid s
  = (Returns (length (calls s)), (complete_start uuid args s).2).
Proof.
  intros Hvalid. unfold handleCompleteTool. rewrite Hvalid.
  by rewrite complete_start_eq.
Qed.

Lemma handleCompleteTool_invalid args uuid s :
  Utils.isValidCompletionArgs args = Returns false →
  handleCompleteTool args uuid s
  = (Throws (McpError InvalidParams "Invalid completion arguments"), s).
Proof. intros Hvalid. unfold handleCompleteTool. by rewrite Hvalid. Qed.

Lemma lookupTask_start id args s :
  lookupTask id (complete_start id args s).2 = Some (task (newCall id s)).
Proof.
  rewrite complete_start_eq. unfold lookupTask, get, object; simpl.
  rewrite lookup_insert_eq; simpl. by rewrite list_lookup_middle.
Qed.

Lemma orDefault_sent args name d : sentOrDefault args name d (orDefault (prop args name) d).
Proof.
  unfold sentOrDefault, orDefault. split.
  - by intros ->.
  - by destruct (prop args name).
Qed.

(** C6. A valid request makes [complete] issue one outbound call, with the
    configured model, the caller's prompt and, for each generation
    parameter, the caller's value or, when it is absent, the default; for
    the request with the prompt "Once upon a time" and nothing else the
    call carries max_tokens 150, temperature 0.7, top_p 1.0,
    frequency_penalty 0.0 and presence_penalty 0.0. *)
Theorem complete_sends_defaults uuid s :
  (∀ args,
      Utils.isValidCompletionArgs args = Returns true →
      ∃ call s' request,
        handleCompleteTool args uuid s = (Returns call, s') ∧
        requests s' = (requests s ++ [request])%list ∧
        OpenAI.model request = model s ∧
        OpenAI.prompt request = prop args "prompt" ∧
        sentOrDefault args "max_tokens" DEFAULT_MAX_TOKENS (OpenAI.max_tokens request) ∧
        sentOrDefault args "temperature" DEFAULT_TEMPERATURE (OpenAI.temperature request) ∧
        sentOrDefault args "top_p" DEFAULT_TOP_P (OpenAI.top_p request) ∧
        sentOrDefault args "frequency_penalty" DEFAULT_FREQUENCY_PENALTY
          (OpenAI.frequency_penalty request) ∧
        sentOrDefault args "presence_penalty" DEFAULT_PRESENCE_PENALTY
          (OpenAI.presence_penalty request)) ∧
  (∃ call s',
      handleCompleteTool (JsObject [("prompt", JsString "Once upon a time")]) uuid s
      = (Returns call, s') ∧
      requests s'
      = (requests s ++
         [ {| OpenAI.model := model s;
              OpenAI.prompt := JsString "Once upon a time";
              OpenAI.max_tokens := JsNumber (150 # 1);
              OpenAI.temperature := JsNumber (7 # 10);
              OpenAI.top_p := JsNumber (1 # 1);
              OpenAI.frequency_penalty := JsNumber (0 # 1);
              OpenAI.presence_penalty := JsNumber (0 # 1) |} ])%list).
Proof.
  split.
  - intros args Hvalid. rewrite handleCompleteTool_valid by done.
    eexists _, _, (requestOf (model s) args). split; [reflexivity |].
    rewrite complete_start_eq. simpl.
    repeat split; auto using orDefault_sent; apply orDefault_sent.
  - rewrite handleCompleteTool_valid by reflexivity.
    eexists _, _. split; [reflexivity |]. by rewrite complete_start_eq.
Qed.

(** A request that overrides one default. *)
Lemma complete_sends_defaults_example :
  ∃ call s' request,
    handleCompleteTool
      (JsObject [("prompt", JsString "Hello"); ("max_tokens", JsNumber (16 # 1))])
      "task-1" (init DEFAULT_MODEL 0)
    = (Returns call, s') ∧
    requests s' = [request] ∧
    OpenAI.max_tokens request = JsNumber (16 # 1) ∧
    OpenAI.temperature request = JsNumber DEFAULT_TEMPERATURE.
Proof.
  destruct (complete_sends_defaults "task-1" (init DEFAULT_MODEL 0)) as [H _].
  destruct (H (JsObject [("prompt", JsString "Hello"); ("max_tokens", JsNumber (16 # 1))])
              eq_refl)
    as (call & s' & request & Hcall & Hreq & _ & _ & Hmax & Htemp & _).
  exists call, s', request.
  split; [exact Hcall |]. split; [exact Hreq |].
  split; [by apply Hmax | by apply Htemp].
Defined.

(** *** An empty prompt *)

(** The request [{prompt: ""}] passes validation and [handleCompleteTool]
    starts a task for it instead of raising the invalid-parameters
    error. *)
Lemma empty_prompt_starts_task :
  let args := JsObject [("prompt", JsString "")] in
  let s := init DEFAULT_MODEL 0 in
  Utils.isValidCompletionArgs args = Returns true ∧
  (handleCompleteTool args "task-1" s).1 = Returns 0%nat ∧
  (handleCompleteTool args "task-1" s).1
    ≠ Throws (McpError InvalidParams "Invalid completion arguments") ∧
  lookupTask "task-1" s = None ∧
  (Types.status <$> lookupTask "task-1" (handleCompleteTool args "task-1" s).2)
    = Some CompletionStatusEnum.Processing.
Proof. vm_compute. repeat split; congruence. Qed.

(** C8, as the code has it. The validator asks of [prompt] that it is a
    string, so a request whose prompt is the empty string (and whose
    optional fields are numbers or absent) is valid: [handleCompleteTool]
    registers a task for it and issues the outbound call with the empty
    prompt.  The invalid-parameters error, with no task created, is what a
    request that fails validation gets. *)
Theorem empty_prompt_is_valid args uuid s :
  (Utils.wellShaped args → prop args "prompt" = JsString "" →
     Utils.isValidCompletionArgs args = Returns true ∧
     ∃ call s' request task,
       handleCompleteTool args uuid s = (Returns call, s') ∧
       lookupTask uuid s' = Some task ∧
       Types.status task = CompletionStatusEnum.Processing ∧
       requests s' = (requests s ++ [request])%list ∧
       OpenAI.prompt request = JsString "") ∧
  (Utils.isValidCompletionArgs args = Returns false →
     handleCompleteTool args uuid s
     = (Throws (McpError InvalidParams "Invalid completion arguments"), s)).
Proof.
  split; [| apply handleCompleteTool_invalid].
  intros Hshape Hprompt.
  destruct (UtilsFacts.isValidCompletionArgs_wellShaped args) as (b & Hb & Hiff).
  assert (b = true) as -> by (by apply Hiff).
  split; [done |]. rewrite handleCompleteTool_valid by done.
  eexists _, _, (requestOf (model s) args), _.
  split; [reflexivity |]. rewrite lookupTask_start.
  split; [reflexivity |]. split; [reflexivity |].
  rewrite complete_start_eq. simpl. by rewrite Hprompt.
Qed.

Lemma empty_prompt_is_valid_example :
  Utils.isValidCompletionArgs (JsObject [("prompt", JsString "")]) = Returns true.
Proof.
  destruct (empty_prompt_is_valid (JsObject [("prompt", JsString "")]) "task-1"
              (init DEFAULT_MODEL 0)) as [H _].
  apply H; [| reflexivity].
  repeat split; try (left; reflexivity); [discriminate | by exists ""].
Defined.

(** *** The outbound call settles first *)

(** While [complete] awaits its race, the registry holds its task. *)
Lemma racing_registered s call c :
  wf s → calls s !! call = Some c → settled c = false →
  get (taskId c) s = Some call.
Proof.
  intros Hwf Hc Hs. apply (wf_registered s Hwf).
  - unfold idOf. by rewrite Hc.
  - unfold settledAt. by rewrite Hc.
Qed.

Lemma object_call s call c : calls s !! call = Some c → object call s = Some (task c).
Proof. unfold object. by intros ->. Qed.

(** [text || ''] on a string yields the string. *)
Lemma text_or_empty (o : option string) :
  match o with
  | Some s => if truthy (JsString s) then s else ""
  | None => ""
  end = default "" o.
Proof.
  destruct o as [s |]; [| done]. simpl.
  destruct (String.eqb_spec s ""); by subst.
Qed.

Lemma reason_or_undefined (s : string) :
  s ≠ "" → (if truthy (JsString s) then Some s else None) = Some s.
Proof. intros Hs. simpl. by destruct (String.eqb_spec s ""). Qed.

(** C2, as the code has it.  When the outbound call of an activation that
    still awaits its race resolves with a response that has a first choice,
    [complete] returns a result and stores it in the task, which is then
    Complete with progress 100, and the tool answers with the result's
    text.  The result's text is the first choice's text, or the empty
    string when the choice has none; its model is the configured one; it
    carries the choice's finish reason when there is a non-empty one, and
    none when the choice has none or the empty string; it carries the usage
    counters when the response has them. *)
Theorem complete_success s call c response choice :
  reachable s →
  calls s !! call = Some c → settled c = false →
  OpenAI.choices response !! 0%nat = Some choice →
  ∃ r task,
    (complete_resolved (taskId c) call response (settle call s)).1 = Returns r ∧
    lookupTask (taskId c) (handle (ApiResolves call response) s) = Some task ∧
    Types.status task = CompletionStatusEnum.Complete ∧
    Types.progress task = 100 ∧
    Types.result task = Some r ∧
    answerOf (handle (ApiResolves call response) s) call
      = Some (Returns (textContent (Types.text r))) ∧
    Types.text r = default "" (OpenAI.text choice) ∧
    Types.model r = model s ∧
    (∀ reason, OpenAI.finish_reason choice = Some reason → reason ≠ "" →
               Types.finish_reason r = Some reason) ∧
    (OpenAI.finish_reason choice = None → Types.finish_reason r = None) ∧
    (OpenAI.finish_reason choice = Some "" → Types.finish_reason r = None) ∧
    Types.usage r
      = (λ u, {| Types.prompt_tokens := OpenAI.prompt_tokens u;
                 Types.completion_tokens := OpenAI.completion_tokens u;
                 Types.total_tokens := OpenAI.total_tokens u |})
        <$> OpenAI.usage response.
Proof.
  intros Hreach Hc Hs Hchoice.
  pose proof (racing_registered s call c (wf_reachable s Hreach) Hc Hs) as Hget.
  cbn [handle]. rewrite raceResolves_eq, Hc, Hs, complete_resolved_eq.
  unfold resolved. change (model (settle call s)) with (model s).
  destruct (completionResult (model s) response) as [r | e] eqn:Hr;
    unfold completionResult in Hr; rewrite Hchoice in Hr; [| done].
  injection Hr as <-.
  eexists _, _. split; [reflexivity |].
  rewrite lookupTask_finish, (object_call s call c) by done.
  split; [reflexivity |]. split; [reflexivity |]. split; [reflexivity |].
  split; [reflexivity |]. split; [by rewrite answerOf_finish |].
  cbn [Types.text Types.model Types.finish_reason Types.usage].
  split; [apply text_or_empty |]. split; [reflexivity |].
  split; [intros reason -> Hne; by apply reason_or_undefined |].
  split; [by intros -> |]. split; [by intros -> |].
  by destruct (OpenAI.usage response).
Qed.

(** *** A run of the server used in the examples below *)

Lemma started_enabled : enabled (CallTool "complete" onceUponATime "task-1") fresh.
Proof. apply not_elem_of_nil. Defined.

Lemma started_reachable : reachable started.
Proof.
  exists DEFAULT_MODEL, 0. apply reaches_step; [apply reaches_refl | apply started_enabled].
Defined.

Lemma complete_success_example :
  ∃ r task,
    lookupTask "task-1" (handle (ApiResolves 0 thereWas) started) = Some task ∧
    Types.status task = CompletionStatusEnum.Complete ∧
    Types.result task = Some r ∧
    Types.text r = " there was" ∧
    Types.finish_reason r = Some "stop".
Proof.
  destruct (complete_success started 0 (newCall "task-1" fresh) thereWas
              {| OpenAI.text := Some " there was"; OpenAI.finish_reason := Some "stop" |}
              started_reachable eq_refl eq_refl eq_refl)
    as (r & task & _ & Hlook & Hstatus & _ & Hresult & _ & Htext & _ & Hreason & _).
  exists r, task.
  split; [exact Hlook |]. split; [exact Hstatus |]. split; [exact Hresult |].
  split; [exact Htext |]. apply Hreason; [reflexivity | discriminate].
Defined.

(** The upstream supplies the empty string as finish reason: the task is
    Complete and its result carries no finish reason. *)
Lemma empty_finish_reason_dropped :
  let s := handle (ApiResolves 0 emptyReason) started in
  reaches fresh s ∧
  (OpenAI.finish_reason <$> OpenAI.choices emptyReason !! 0%nat) = Some (Some "") ∧
  ∃ task r,
    lookupTask "task-1" s = Some task ∧
    Types.status task = CompletionStatusEnum.Complete ∧
    Types.result task = Some r ∧
    Types.finish_reason r = None ∧
    Types.finish_reason r ≠ Some "".
Proof.
  split.
  - apply reaches_step; [| by (eexists; vm_compute)].
    apply reaches_step; [apply reaches_refl | apply started_enabled].
  - split; [reflexivity |]. eexists _, _.
    split; [by vm_compute |]. by repeat split.
Qed.

(** *** A response without choices *)




(** *** The timeout timer *)

Lemma overwritten_reaches : reaches fresh overwritten.
Proof.
  repeat (apply reaches_step; [| try (vm_compute; congruence)]).
  - apply reaches_refl.
  - apply started_enabled.
  - by eexists.
  - eexists _, _. split; [reflexivity | vm_compute; congruence].
Qed.

Lemma timedOut_reaches : reaches fresh timedOut.
Proof.
  repeat (apply reaches_step; [| try (vm_compute; congruence)]).
  - apply reaches_refl.
  - apply started_enabled.
  - eexists _, _. split; [reflexivity | vm_compute; congruence].
Qed.

(** C1 at the request "Once upon a time", answered after one second: the
    task is Pending, then Processing, then Complete with its result, and
    59 seconds later the timeout callback sets it to Error with the
    message "Completion timed out". *)
Theorem timeout_overwrites_completed_task :
  reaches fresh overwritten ∧
  (Types.status <$> lookupTask "task-1" (complete_register "task-1" fresh).2)
    = Some CompletionStatusEnum.Pending ∧
  (Types.status <$> lookupTask "task-1" started) = Some CompletionStatusEnum.Processing ∧
  (Types.status <$> lookupTask "task-1" completed) = Some CompletionStatusEnum.Complete ∧
  (Types.error <$> lookupTask "task-1" completed) = Some None ∧
  (Types.status <$> lookupTask "task-1" overwritten) = Some CompletionStatusEnum.Error ∧
  (Types.error <$> lookupTask "task-1" overwritten) = Some (Some "Completion timed out").
Proof. split; [apply overwritten_reaches |]. vm_compute. by repeat split. Qed.

(** C7 at the same run: after the timeout callback the task has status
    Error and still holds the result of its completion. *)
Theorem result_kept_in_error_state :
  reaches fresh overwritten ∧
  ∃ task r,
    lookupTask "task-1" overwritten = Some task ∧
    Types.status task = CompletionStatusEnum.Error ∧
    Types.result task = Some r ∧
    Types.text r = " there was".
Proof.
  split; [apply overwritten_reaches |].
  eexists _, _. vm_compute. by repeat split.
Qed.

(** C3 at the request "Once upon a time" with no response within 60
    seconds: the timeout callback stores "Completion timed out", the
    [catch] block of [complete], which runs in the same turn, replaces it
    by the message of the error it caught, and the caller receives the
    timeout text. *)
Theorem timeout_message_replaced :
  reaches fresh timedOut ∧
  (Types.error <$>
     lookupTask "task-1" (timeoutMark "task-1" (dropTimer 0 (handle (Elapse 60000) started))))
    = Some (Some "Completion timed out") ∧
  (Types.status <$> lookupTask "task-1" timedOut) = Some CompletionStatusEnum.Error ∧
  (Types.error <$> lookupTask "task-1" timedOut)
    = Some (Some "OpenAI API request timed out") ∧
  answerOf timedOut 0 = Some (Returns (textContent timedOutText)).
Proof. split; [apply timedOut_reaches |]. vm_compute. by repeat split. Qed.

(** When the timeout callback of an activation runs while its race is
    unsettled, the task ends in status Error, the message the callback
    stored is replaced by the message of the rejection, and the caller
    receives the timeout text. *)
Theorem timeout_fires_first s k d id call :
  reachable s →
  timers s !! k = Some (d, TimeoutTimer id call) → d ≤ now s →
  settledAt s call = false →
  ∃ stored,
    (Types.error <$> lookupTask id (timeoutMark id (dropTimer k s)))
      = Some (Some "Completion timed out") ∧
    lookupTask id (handle (TimerFires k) s) = Some stored ∧
    Types.status stored = CompletionStatusEnum.Error ∧
    Types.error stored = Some "OpenAI API request timed out" ∧
    answerOf (handle (TimerFires k) s) call = Some (Returns (textContent timedOutText)).
Proof.
  intros Hreach Hk Hd Hs. pose proof (wf_reachable s Hreach) as Hwf.
  assert (Hid : idOf s call = Some id).
  { eapply (wf_timeout s Hwf). by eapply list_elem_of_lookup_2. }
  pose proof (wf_registered s Hwf _ _ Hid Hs) as Hget.
  assert (Hc : ∃ c, calls s !! call = Some c).
  { unfold idOf in Hid. destruct (calls s !! call); [by eexists | done]. }
  destruct Hc as [c Hc].
  cbn [handle]. rewrite Hk. cbn [runTimer]. unfold timeoutCallback.
  fold (dropTimer k s). rewrite timeoutMark_update, raceRejects_cases.
  fold marked. rewrite idOf_update, settledAt_update.
  change (idOf (dropTimer k s) call) with (idOf s call).
  change (settledAt (dropTimer k s) call) with (settledAt s call).
  rewrite Hid, Hs. unfold rejected.
  rewrite lookupTask_update, lookupTask_finish
    by (unfold get; by rewrite activeTasks_update).
  rewrite object_update, decide_True by done.
  unfold lookupTask. change (get id (dropTimer k s)) with (activeTasks s !! id).
  rewrite Hget. simpl.
  change (object call (dropTimer k s)) with (object call s).
  rewrite (object_call s call c Hc). simpl.
  eexists. split; [reflexivity |]. split; [reflexivity |].
  split; [reflexivity |]. split; [reflexivity |].
  rewrite answerOf_finish; [done |].
  apply lookup_lt_is_Some. unfold update.
  destruct (get id (dropTimer k s)); simpl; rewrite ?length_alter; by eapply lookup_lt_Some.
Qed.

Lemma timeout_fires_first_example :
  (Types.error <$> lookupTask "task-1" timedOut)
  = Some (Some "OpenAI API request timed out").
Proof.
  assert (Hreach : reachable (handle (Elapse 60000) started)).
  { exists DEFAULT_MODEL, 0.
    apply reaches_step; [| by vm_compute].
    apply reaches_step; [apply reaches_refl | apply started_enabled]. }
  destruct (timeout_fires_first (handle (Elapse 60000) started) 0 60000 "task-1" 0
              Hreach eq_refl) as (stored & _ & Hlook & _ & Herror & _).
  - by vm_compute.
  - by vm_compute.
  - unfold timedOut. rewrite Hlook. cbn [fmap option_fmap option_map]. by rewrite Herror.
Defined.

(** Once [complete] has finished, a settlement of the outbound call changes
    nothing: the loser of the race is ignored when it is the outbound
    call. *)
Theorem late_settlement_ignored s call response error :
  settledAt s call = true →
  handle (ApiResolves call response) s = s ∧ handle (ApiRejects call error) s = s.
Proof.
  intros Hs. cbn [handle]. rewrite raceResolves_cases, raceRejects_cases, Hs.
  by destruct (idOf s call).
Qed.

Lemma late_settlement_ignored_example :
  handle (ApiResolves 0 thereWas) timedOut = timedOut.
Proof.
  destruct (late_settlement_ignored timedOut 0 thereWas (NonError "")) as [H _];
    [by vm_compute | exact H].
Defined.

(** *** Removal from the registry *)











End Lifecycle.

(** ** Whole runs of the server *)
Module RunFacts.
Import Constants Server Turns ServerFacts Index Runs.

(** *** Every turn is one of the cases *)

Lemma handle_turn e s : wf s → enabled e s → turn s (handle e s).
Proof.
  intros Hwf He. destruct e as [name arguments uuid | call response | call error | k | id | ms];
    cbn [handle]; cbn [enabled] in He.
  - unfold callTool.
    destruct (negb _); [constructor |].
    generalize (if truthy arguments then arguments else JsObject []).
    intros args. unfold handleCompleteTool.
    destruct (Utils.isValidCompletionArgs args) as [[] |] eqn:Hvalid; [| constructor ..].
    rewrite (surjective_pairing (complete_start uuid args s)). cbn [snd].
    by apply turn_start.
  - rewrite raceResolves_cases.
    destruct (idOf s call) eqn:Hid; [| constructor].
    destruct (settledAt s call) eqn:Hs; [constructor |]. by apply turn_resolved.
  - rewrite raceRejects_cases.
    destruct (idOf s call) eqn:Hid; [| constructor].
    destruct (settledAt s call) eqn:Hs; [constructor |]. by apply turn_rejected.
  - destruct He as (d & callback & Hk & Hd). rewrite Hk.
    destruct callback as [id call | id]; cbn [runTimer].
    + unfold timeoutCallback. rewrite timeoutMark_update, raceRejects_cases.
      fold (dropTimer k s). fold marked. rewrite idOf_update, settledAt_update.
      change (idOf (dropTimer k s) call) with (idOf s call).
      change (settledAt (dropTimer k s) call) with (settledAt s call).
      assert (Hid : idOf s call = Some id).
      { eapply wf_timeout; [done |]. by eapply list_elem_of_lookup_2. }
      rewrite Hid. destruct (settledAt s call) eqn:Hs.
      * by eapply turn_overdue.
      * by eapply turn_timeout.
    + by econstructor.
  - rewrite cancelTask_eq. destruct (get id s) as [ref |] eqn:Hget; [| constructor].
    destruct (object ref s) as [task |] eqn:Hobj; [| constructor].
    destruct (CompletionStatusEnum.terminal _) eqn:Hterm; [constructor |].
    by eapply turn_cancel.
  - by constructor.
Qed.

Lemma turn_effect s s' : turn s s' → effect s s'.
Proof.
  intros Hturn.
  destruct Hturn;
    first [ by apply resolved_effect
          | by apply rejected_effect
          | by (eapply eff_timeout; eauto using failed_finishes)
          | by econstructor
          | apply eff_update, cancelled_finishes ].
Qed.

(** An invariant of the turns holds in every state a run reaches. *)
Lemma turns_reach (P : t → Prop) s0 s :
  (∀ s s', wf s → turn s s' → P s → P s') →
  wf s0 → P s0 → reaches s0 s → P s.
Proof.
  intros Hstep Hwf HP Hreach.
  induction Hreach as [| s1 e Hreach IH He]; [done |].
  assert (wf s1) by (by eapply wf_reaches).
  eapply Hstep; [done | by apply handle_turn | done].
Qed.

(** *** The task objects *)

Lemma object_finish k id f r s call :
  object call (finish k id f r s)
  = if decide (get id s = Some call) then f <$> object call s else object call s.
Proof.
  unfold finish. rewrite object_respond, object_finally, object_update.
  change (get id (settle k s)) with (get id s). by rewrite object_settle.
Qed.

Lemma object_start_any id args s call :
  object call (complete_start id args s).2
  = if decide (call = length (calls s)) then Some (task (newCall id s)) else object call s.
Proof.
  rewrite complete_start_eq. unfold object; simpl.
  case_decide as Hc.
  - subst. by rewrite list_lookup_middle.
  - destruct (decide (call < length (calls s))%nat).
    + by rewrite lookup_app_l.
    + rewrite !lookup_ge_None_2; [done | lia |]. rewrite length_app; simpl; lia.
Qed.

Lemma model_finish k id f r s : model (finish k id f r s) = model s.
Proof.
  unfold finish, respond, complete_finally, setTimeout; simpl.
  unfold update. by destruct (get id (settle k s)).
Qed.

Lemma model_update id f s : model (update id f s) = model s.
Proof. unfold update. by destruct (get id s). Qed.

Lemma turn_model s s' : turn s s' → model s' = model s.
Proof.
  intros []; rewrite ?complete_start_eq; unfold resolved, rejected;
    try destruct (completionResult _ _);
    rewrite ?model_finish, ?model_update; reflexivity.
Qed.

(** A task after a turn is the task before it, or the task before it with
    one of the assignments applied, or a new task. *)
Lemma turn_object s s' call task' :
  wf s → turn s s' → object call s' = Some task' →
  object call s = Some task'
  ∨ (∃ task f, object call s = Some task ∧ assigned (model s) f ∧ task' = f task)
  ∨ (∃ id args, call = length (calls s) ∧ s' = (complete_start id args s).2 ∧
                task' = task (newCall id s)).
Proof.
  intros Hwf Hturn. destruct Hturn as
    [| id args Hfresh Hvalid | k id response Hid Hs | k id error Hid Hs
     | id ref task Hget Hobj Hterm | k d id k' Hk Hd Hid Hs | k d id k' Hk Hd Hs
     | k d id Hk Hd | ms Hms].
  - auto.
  - rewrite object_start_any. case_decide as Hc.
    + intros [= <-]. right. right. by exists id, args.
    + auto.
  - unfold resolved. destruct (completionResult (model s) response) as [r | error] eqn:Hr;
      unfold rejected; rewrite object_finish; case_decide; auto;
      (destruct (object call s) as [task |]; [| done]); intros [= <-]; right; left.
    + exists task, (succeeded r). split; [done |]. split; [by econstructor | done].
    + exists task, (failed error). split; [done |]. split; [constructor | done].
  - unfold rejected. rewrite object_finish. case_decide; auto.
    destruct (object call s) as [task |]; [| done]. intros [= <-].
    right. left. exists task, (failed error). split; [done |]. split; [constructor | done].
  - rewrite object_update. case_decide; auto.
    destruct (object call s) as [task0 |]; [| done]. intros [= <-].
    right. left. exists task0, cancelled. split; [done |]. split; [constructor | done].
  - unfold rejected. rewrite object_finish, object_update.
    change (get id (update id marked (dropTimer k s))) with
      (activeTasks (update id marked (dropTimer k s)) !! id).
    rewrite activeTasks_update.
    change (activeTasks (dropTimer k s) !! id) with (get id s).
    change (get id (dropTimer k s)) with (get id s).
    change (object call (dropTimer k s)) with (object call s).
    case_decide; auto.
    destruct (object call s) as [task |]; [| done]. intros [= <-].
    right. left. exists task, (failed Types.newCompletionTimeoutError ∘ marked).
    split; [done |]. split; [constructor | done].
  - rewrite object_update.
    change (get id (dropTimer k s)) with (get id s).
    change (object call (dropTimer k s)) with (object call s).
    case_decide; auto.
    destruct (object call s) as [task |]; [| done]. intros [= <-].
    right. left. exists task, marked. split; [done |]. split; [constructor | done].
  - auto.
  - auto.
Qed.

Lemma assigned_statusOk m f task : assigned m f → statusOk (f task).
Proof.
  intros []; split; simpl; try done; intros _; rewrite ?is_Some_alt; done.
Qed.

Lemma newCall_statusOk id s : statusOk (task (newCall id s)).
Proof. split; simpl; done. Qed.

Lemma completionResult_model m response r :
  completionResult m response = Returns r → Types.model r = m.
Proof.
  unfold completionResult. destruct (OpenAI.choices response !! 0%nat); [| done].
  by intros [= <-].
Qed.

Lemma assigned_progressOk m f task :
  assigned m f → progressOk m task → progressOk m (f task).
Proof.
  intros Hf [Hcoarse Hmodel].
  destruct Hf as [error | response r Hr | | |]; split; simpl; try done.
  - right. split; [done | by eexists].
  - intros r' [= <-]. by eapply completionResult_model.
Qed.

Lemma newCall_progressOk m id s : progressOk m (task (newCall id s)).
Proof. split; simpl; [by left | done]. Qed.

Lemma lookupTask_object id s task :
  lookupTask id s = Some task → ∃ ref, get id s = Some ref ∧ object ref s = Some task.
Proof.
  unfold lookupTask. destruct (get id s) as [ref |]; [| done]. simpl. eauto.
Qed.

(** What holds of the task objects in every state of a run. *)
Lemma tasks_reach m t0 s :
  reaches (init m t0) s →
  model s = m ∧
  ∀ call task, object call s = Some task → statusOk task ∧ progressOk m task.
Proof.
  apply (turns_reach (fun s => model s = m ∧
           ∀ call task, object call s = Some task → statusOk task ∧ progressOk m task)).
  - intros s1 s2 Hwf Hturn [Hm Htasks]. split; [by rewrite (turn_model s1 s2 Hturn) |].
    intros call task' Hobj.
    destruct (turn_object s1 s2 call task' Hwf Hturn Hobj)
      as [Hold | [(task & f & Hold & Hf & ->) | (id & args & _ & _ & ->)]].
    + by eapply Htasks.
    + rewrite Hm in Hf. split; [by eapply assigned_statusOk |].
      eapply assigned_progressOk; [done |]. by eapply Htasks.
    + split; [apply newCall_statusOk | apply newCall_progressOk].
  - apply wf_init.
  - split; [done |]. intros call task. unfold object; simpl. done.
Qed.

(** In every state of a run, a task found in the registry is never
    Pending; while it is Processing it has no result, no error message,
    progress 0 and an unsignalled cancellation handle; when it is Complete
    it has a result and progress 100; when it is Error it has an error
    message. *)
Theorem status_fields_agree s id task :
  reachable s → lookupTask id s = Some task → statusOk task.
Proof.
  intros (m & t0 & Hreach) Hlook.
  destruct (lookupTask_object id s task Hlook) as (ref & _ & Hobj).
  destruct (tasks_reach m t0 s Hreach) as [_ Htasks].
  by eapply Htasks.
Qed.

Lemma status_fields_agree_example :
  ∃ task, lookupTask "task-1" overwritten = Some task ∧ statusOk task.
Proof.
  eexists. split; [by vm_compute |].
  apply (status_fields_agree overwritten "task-1").
  - exists DEFAULT_MODEL, 0. apply Lifecycle.overwritten_reaches.
  - by vm_compute.
Defined.

(** In every state of a run, the progress of a task found in the registry
    is 0 without a result or 100 with one, never a value in between, and a
    result it holds names the configured model. *)
Theorem progress_and_result m t0 s id task :
  reaches (init m t0) s → lookupTask id s = Some task → progressOk m task.
Proof.
  intros Hreach Hlook.
  destruct (lookupTask_object id s task Hlook) as (ref & _ & Hobj).
  destruct (tasks_reach m t0 s Hreach) as [_ Htasks].
  by eapply Htasks.
Qed.

Lemma progress_and_result_example :
  ∃ task, lookupTask "task-1" completed = Some task ∧ progressOk DEFAULT_MODEL task.
Proof.
  eexists. split; [by vm_compute |].
  apply (progress_and_result DEFAULT_MODEL 0 completed "task-1").
  - apply reaches_step; [| by (eexists; vm_compute)].
    apply reaches_step; [| by vm_compute].
    apply reaches_step; [apply reaches_refl | apply Lifecycle.started_enabled].
  - by vm_compute.
Defined.

(** *** The requests *)

Lemma requests_update id f s : requests (update id f s) = requests s.
Proof. unfold update. by destruct (get id s). Qed.

Lemma requests_finish k id f r s : requests (finish k id f r s) = requests s.
Proof. unfold finish; simpl. by rewrite requests_update. Qed.

Lemma length_calls_update id f s : length (calls (update id f s)) = length (calls s).
Proof. unfold update. destruct (get id s); [| done]. simpl. apply length_alter. Qed.

Lemma length_calls_finish k id f r s : length (calls (finish k id f r s)) = length (calls s).
Proof.
  unfold finish, respond; simpl. rewrite length_alter.
  change (calls (complete_finally id ?x)) with (calls x).
  rewrite length_calls_update. simpl. apply length_alter.
Qed.

(** A turn issues no request, or the one request of the activation it
    starts. *)
Lemma turn_requests s s' :
  turn s s' →
  (requests s' = requests s ∧ length (calls s') = length (calls s))
  ∨ (∃ args, Utils.isValidCompletionArgs args = Returns true ∧
             requests s' = (requests s ++ [requestOf (model s) args])%list ∧
             length (calls s') = S (length (calls s))).
Proof.
  intros [| id args Hfresh Hvalid | | | | | | |].
  - by left.
  - right. exists args. rewrite complete_start_eq. simpl.
    split; [done |]. split; [done |]. rewrite length_app. simpl. lia.
  - left. unfold resolved. destruct (completionResult _ _); unfold rejected;
      by rewrite requests_finish, length_calls_finish.
  - left. unfold rejected. by rewrite requests_finish, length_calls_finish.
  - left. by rewrite requests_update, length_calls_update.
  - left. unfold rejected.
    by rewrite requests_finish, length_calls_finish, requests_update, length_calls_update.
  - left. by rewrite requests_update, length_calls_update.
  - by left.
  - by left.
Qed.

Lemma orDefault_isNumber v d : Utils.numericIfPresent v → isNumber (orDefault v d).
Proof. intros [-> | [n ->]]; by eexists. Qed.

(** The request built from valid arguments is well typed. *)
Lemma valid_wellTyped m args :
  Utils.isValidCompletionArgs args = Returns true → wellTyped m (requestOf m args).
Proof.
  intros Hvalid.
  destruct (UtilsFacts.isValidCompletionArgs_wellShaped args) as (b & Hb & Hiff).
  assert (b = true) as -> by congruence.
  destruct Hiff as [Hshape _].
  destruct (Hshape eq_refl) as (_ & _ & Hprompt & H1 & H2 & H3 & H4 & H5).
  split; simpl; auto using orDefault_isNumber.
Qed.

Lemma requests_reach m t0 s :
  reaches (init m t0) s →
  model s = m ∧ length (requests s) = length (calls s)
  ∧ Forall (wellTyped m) (requests s).
Proof.
  apply (turns_reach (fun s => model s = m ∧ length (requests s) = length (calls s)
                               ∧ Forall (wellTyped m) (requests s))).
  - intros s1 s2 Hwf Hturn (Hm & Hlen & Htyped).
    split; [by rewrite (turn_model s1 s2 Hturn) |].
    destruct (turn_requests s1 s2 Hturn) as [[-> ->] | (args & Hvalid & -> & ->)]; [done |].
    split; [rewrite length_app; simpl; lia |].
    apply Forall_app. split; [done |]. apply Forall_singleton.
    rewrite Hm. by apply valid_wellTyped.
  - apply wf_init.
  - split; [done |]. split; [done | constructor].
Qed.

(** In every state of a run the server has handed exactly one request to
    the HTTP client for each activation it has started, never a second one,
    and every request names the configured model, has a string as prompt
    and numbers as generation parameters. *)
Theorem one_typed_request_per_call m t0 s :
  reaches (init m t0) s →
  length (requests s) = length (calls s) ∧ Forall (wellTyped m) (requests s).
Proof.
  intros Hreach. by destruct (requests_reach m t0 s Hreach) as (_ & Hlen & Htyped).
Qed.

Lemma one_typed_request_per_call_example :
  length (requests overwritten) = 1%nat ∧
  Forall (wellTyped DEFAULT_MODEL) (requests overwritten).
Proof.
  destruct (one_typed_request_per_call DEFAULT_MODEL 0 overwritten
              Lifecycle.overwritten_reaches) as [Hlen Htyped].
  split; [| exact Htyped]. rewrite Hlen. by vm_compute.
Defined.

(** *** The answers *)

Lemma answerOf_update id f s call : answerOf (update id f s) call = answerOf s call.
Proof.
  unfold update. destruct (get id s) as [ref |]; [| done].
  unfold answerOf, assign; simpl. rewrite list_lookup_alter.
  case_decide; [subst | done]. by destruct (calls s !! call).
Qed.

Lemma answerOf_settle k s call : answerOf (settle k s) call = answerOf s call.
Proof.
  unfold answerOf, settle; simpl. rewrite list_lookup_alter.
  case_decide; [subst | done]. by destruct (calls s !! call).
Qed.

Lemma answerOf_finish_any k id f r s call :
  answerOf (finish k id f r s) call
  = if decide (k = call ∧ is_Some (idOf s call)) then Some (handleCompleteTool_answer r)
    else answerOf s call.
Proof.
  unfold finish.
  assert (Hbase : ∀ j, answerOf (complete_finally id (update id f (settle k s))) j
                       = answerOf s j).
  { intros j. change (answerOf (complete_finally id ?x) j) with (answerOf x j).
    by rewrite answerOf_update, answerOf_settle. }
  assert (Hid : idOf (complete_finally id (update id f (settle k s))) call = idOf s call).
  { by autorewrite with server. }
  specialize (Hbase call). revert Hbase Hid.
  generalize (complete_finally id (update id f (settle k s))). intros x Hbase Hid.
  unfold answerOf, respond, idOf in *; simpl. rewrite list_lookup_alter.
  destruct (decide (k = call)) as [-> | Hne].
  - destruct (calls x !! call) as [c |] eqn:Hc; simpl in *.
    + rewrite decide_True; [done |]. split; [done |]. rewrite <- Hid. by eexists.
    + case_decide as Hd; [| done]. destruct Hd as [_ [y Hy]]. congruence.
  - rewrite decide_False by tauto. done.
Qed.

Lemma answerOf_start id args s call :
  answerOf (complete_start id args s).2 call = answerOf s call.
Proof.
  rewrite complete_start_eq. unfold answerOf; simpl.
  destruct (decide (call < length (calls s))%nat).
  - by rewrite lookup_app_l.
  - rewrite (lookup_ge_None_2 (calls s)) by lia.
    destruct (decide (call = length (calls s))) as [-> | Hne].
    + by rewrite list_lookup_middle.
    + rewrite lookup_ge_None_2; [done |]. rewrite length_app; simpl; lia.
Qed.

Lemma failure_answer aborted error :
  handleCompleteTool_answer (Throws (thrown aborted error)) = failureAnswer aborted error.
Proof. destruct error, aborted; reflexivity. Qed.

Lemma failureAnswer_answered aborted error : answered (failureAnswer aborted error).
Proof.
  destruct error, aborted; simpl; try (left; by eexists); right; by eexists.
Qed.

(** A turn leaves an activation as settled and as answered as it was, or
    settles it and gives it its answer. *)
Lemma turn_answers s s' call :
  turn s s' →
  (settledAt s' call = settledAt s call ∧ answerOf s' call = answerOf s call)
  ∨ (settledAt s call = false ∧ settledAt s' call = true ∧
     ∃ a, answerOf s' call = Some a ∧ answered a).
Proof.
  intros [| id args Hfresh Hvalid | k id response Hid Hs | k id error Hid Hs
          | id ref task Hget Hobj Hterm | k d id k' Hk Hd Hid Hs | k d id k' Hk Hd Hs
          | k d id Hk Hd | ms Hms].
  - by left.
  - left. by rewrite settledAt_start, answerOf_start.
  - destruct (decide (k = call)) as [-> | Hne].
    + right. split; [done |].
      assert (Hsome : is_Some (idOf s call)) by (rewrite Hid; by eexists).
      split.
      * unfold resolved. destruct (completionResult _ _); unfold rejected;
          rewrite settledAt_finish; by rewrite decide_True.
      * unfold resolved. destruct (completionResult _ _) as [r | error]; unfold rejected;
          rewrite answerOf_finish_any, decide_True by done; eexists; (split; [done |]).
        -- left. by eexists.
        -- rewrite failure_answer. apply failureAnswer_answered.
    + left. unfold resolved. destruct (completionResult _ _); unfold rejected;
        rewrite settledAt_finish, answerOf_finish_any, !decide_False by tauto; done.
  - destruct (decide (k = call)) as [-> | Hne].
    + right. split; [done |].
      assert (Hsome : is_Some (idOf s call)) by (rewrite Hid; by eexists).
      unfold rejected. rewrite settledAt_finish, answerOf_finish_any, !decide_True by done.
      split; [done |]. eexists. split; [done |].
      rewrite failure_answer. apply failureAnswer_answered.
    + left. unfold rejected.
      rewrite settledAt_finish, answerOf_finish_any, !decide_False by tauto. done.
  - left. by rewrite settledAt_update, answerOf_update.
  - assert (Hbase : settledAt (update id marked (dropTimer k s)) call = settledAt s call
                    ∧ answerOf (update id marked (dropTimer k s)) call = answerOf s call
                    ∧ idOf (update id marked (dropTimer k s)) call = idOf s call).
    { by rewrite settledAt_update, answerOf_update, idOf_update. }
    destruct Hbase as (Hb1 & Hb2 & Hb3).
    destruct (decide (k' = call)) as [-> | Hne].
    + right. split; [done |].
      assert (Hsome : is_Some (idOf s call)) by (rewrite Hid; by eexists).
      unfold rejected. rewrite settledAt_finish, answerOf_finish_any.
      rewrite Hb3, !decide_True by done.
      split; [done |]. eexists. split; [done |].
      rewrite failure_answer. apply failureAnswer_answered.
    + left. unfold rejected.
      rewrite settledAt_finish, answerOf_finish_any, !decide_False by tauto. done.
  - left. by rewrite settledAt_update, answerOf_update.
  - by left.
  - by left.
Qed.

(** What holds of the answers in every state of a run. *)
Lemma answers_reach s :
  reachable s →
  ∀ call, (settledAt s call = true ↔ is_Some (answerOf s call)) ∧
          ∀ a, answerOf s call = Some a → answered a.
Proof.
  intros (m & t0 & Hreach). revert Hreach.
  apply (turns_reach (fun s => ∀ call,
           (settledAt s call = true ↔ is_Some (answerOf s call)) ∧
           ∀ a, answerOf s call = Some a → answered a)).
  - intros s1 s2 Hwf Hturn Hinv call. destruct (Hinv call) as [Hiff Hkind].
    destruct (turn_answers s1 s2 call Hturn) as [[-> ->] | (Hs & -> & a & -> & Ha)]; [done |].
    split; [split; [by eexists | done] |]. by intros a' [= <-].
  - apply wf_init.
  - intros call. unfold settledAt, answerOf; simpl. split; [| done].
    split; [done | by intros [? ?]].
Qed.

(** In every state of a run an activation has an answer exactly when its
    [complete] has finished, and the answer is a text or the protocol error
    that wraps an upstream error; no other error reaches the caller of
    a tool call that was accepted. *)
Theorem answer_kinds s call :
  reachable s →
  (settledAt s call = true ↔ is_Some (answerOf s call)) ∧
  ∀ a, answerOf s call = Some a → answered a.
Proof. intros Hreach. by apply answers_reach. Qed.

Lemma answer_kinds_example :
  ∃ a, answerOf timedOut 0 = Some a ∧ answered a.
Proof.
  eexists. split; [by vm_compute |].
  destruct (answer_kinds timedOut 0) as [_ Hkind].
  - exists DEFAULT_MODEL, 0. apply Lifecycle.timedOut_reaches.
  - apply Hkind. by vm_compute.
Defined.

(** The answer of an activation never changes: in every later state of the
    run it is the one that was given. *)
Theorem answer_given_once s s2 call a :
  reachable s → reaches s s2 →
  answerOf s call = Some a → answerOf s2 call = Some a.
Proof.
  intros Hreach Hrun Ha.
  enough (answerOf s2 call = Some a ∧ reachable s2) by tauto.
  induction Hrun as [| s1 e Hrun IH He]; [done |].
  destruct IH as [Ha1 Hreach1].
  assert (Hreach2 : reachable (handle e s1)).
  { destruct Hreach1 as (m & t0 & H). exists m, t0. by apply reaches_step. }
  split; [| done].
  pose proof (handle_turn e s1 (wf_reachable s1 Hreach1) He) as Hturn.
  destruct (turn_answers s1 (handle e s1) call Hturn) as [[_ ->] | (Hs & _)]; [done |].
  destruct (answers_reach s1 Hreach1 call) as [Hiff _].
  assert (settledAt s1 call = true) by (apply Hiff; rewrite Ha1; by eexists).
  congruence.
Qed.

Lemma answer_given_once_example :
  answerOf overwritten 0 = Some (Returns (textContent " there was")).
Proof.
  apply (answer_given_once completed overwritten 0).
  - exists DEFAULT_MODEL, 0.
    apply reaches_step; [| by (eexists; vm_compute)].
    apply reaches_step; [| by vm_compute].
    apply reaches_step; [apply reaches_refl | apply Lifecycle.started_enabled].
  - apply reaches_step; [| eexists _, _; split; by vm_compute].
    apply reaches_step; [apply reaches_refl | by vm_compute].
  - by vm_compute.
Defined.

(** *** The registry and the timers *)

(** A turn enters into the registry only the task of the activation it
    starts. *)
Lemma effect_entered s s' id ref :
  effect s s' → activeTasks s' !! id = Some ref →
  activeTasks s !! id = Some ref ∨ (idOf s ref = None ∧ idOf s' ref = Some id).
Proof.
  intros Heff.
  destruct Heff as [| id' args Hfresh | | | | | k d id' Hk Hd |];
    autorewrite with server; auto.
  - intros [[<- <-] | [Hne Hx]]%lookup_insert_Some; [| auto].
    right. rewrite decide_True by done. split; [| done].
    unfold idOf. by rewrite lookup_ge_None_2.
  - intros [_ H]%lookup_delete_Some. auto.
Qed.

(** In every state of a run, every task in the registry is accounted for:
    its activation still awaits its race, or the timer that removes it is
    pending. *)
Theorem registry_accounted s :
  reachable s → accounted s.
Proof.
  intros (m & t0 & Hreach). revert Hreach.
  apply (turns_reach accounted).
  - intros s1 s2 Hwf Hturn Hacc id ref Hget.
    pose proof (turn_effect s1 s2 Hturn) as Heff.
    destruct (effect_entered s1 s2 id ref Heff Hget) as [Hold | [Hnone Hnew]].
    + destruct (Hacc id ref Hold) as [Hs | [d Hin]].
      * destruct (settledAt s2 ref) eqn:Hs2; [| by left].
        right. pose proof (wf_refs s1 Hwf _ _ Hold) as Hid.
        destruct (effect_settles s1 s2 Heff _ _ Hid Hs Hs2) as [Htimer _]. eauto.
      * destruct (effect_cleanup_kept s1 s2 Heff _ _ Hin) as [Hkept | Hgone].
        -- right. eauto.
        -- unfold get in Hget. congruence.
    + left. eapply (effect_born s1 s2 Heff ref Hnone). congruence.
  - apply wf_init.
  - intros id ref. unfold get; simpl. by rewrite lookup_empty.
Qed.

Lemma registry_accounted_example :
  ∃ d, (d, CleanupTimer "task-1") ∈ timers overwritten.
Proof.
  assert (Hreach : reachable overwritten).
  { exists DEFAULT_MODEL, 0. apply Lifecycle.overwritten_reaches. }
  destruct (registry_accounted overwritten Hreach "task-1" 0%nat) as [Hs | Hd].
  - by vm_compute.
  - exfalso. vm_compute in Hs. discriminate.
  - exact Hd.
Defined.

(** In every state of a run the registry holds a task object for every
    identifier it has, the object is that of the activation that was started
    under this identifier, and no object is held under two identifiers. *)
Theorem registry_one_to_one s id ref :
  reachable s → get id s = Some ref →
  is_Some (lookupTask id s) ∧ idOf s ref = Some id ∧
  ∀ id', get id' s = Some ref → id' = id.
Proof.
  intros Hreach Hget. pose proof (wf_reachable s Hreach) as Hwf.
  pose proof (wf_refs s Hwf _ _ Hget) as Hid.
  split; [| split; [done |]].
  - unfold lookupTask. rewrite Hget. simpl. unfold object, idOf in *.
    destruct (calls s !! ref); [by eexists | done].
  - intros id' Hget'. pose proof (wf_refs s Hwf _ _ Hget'). congruence.
Qed.

Lemma registry_one_to_one_example :
  is_Some (lookupTask "task-1" started).
Proof.
  destruct (registry_one_to_one started "task-1" 0%nat Lifecycle.started_reachable)
    as [H _]; [by vm_compute | exact H].
Defined.

Lemma terminalAt_finish k id f r s call :
  finishes f →
  terminalAt (finish k id f r s) call
  = if decide (get id s = Some call ∧ is_Some (idOf s call)) then true
    else terminalAt s call.
Proof.
  intros Hf. unfold finish. autorewrite with server.
  rewrite terminalAt_update by done. by autorewrite with server.
Qed.

Lemma effect_terminal s s' call :
  effect s s' → terminalAt s call = true → terminalAt s' call = true.
Proof.
  intros Heff Ht.
  destruct Heff as [| id args Hfresh | | | | | |];
    rewrite ?terminalAt_finish, ?terminalAt_update by (done || apply marked_finishes);
    autorewrite with server;
    rewrite ?terminalAt_update by (done || apply marked_finishes);
    autorewrite with server;
    repeat case_decide; try done.
  subst. unfold terminalAt, object in Ht. by rewrite lookup_ge_None_2 in Ht.
Qed.

(** A task that is Complete or Error stays Complete or Error in every later
    state of the run: no turn takes a task back to Pending or
    Processing. *)
Theorem terminal_for_good s s2 call :
  reachable s → reaches s s2 →
  terminalAt s call = true → terminalAt s2 call = true.
Proof.
  intros Hreach Hrun Ht.
  apply (turns_reach (fun s => terminalAt s call = true) s s2); try done.
  - intros s1 s1' _ Hturn. by apply effect_terminal, turn_effect.
  - by apply wf_reachable.
Qed.

Lemma terminal_for_good_example : terminalAt overwritten 0 = true.
Proof.
  apply (terminal_for_good completed overwritten 0).
  - exists DEFAULT_MODEL, 0.
    apply reaches_step; [| by (eexists; vm_compute)].
    apply reaches_step; [| by vm_compute].
    apply reaches_step; [apply reaches_refl | apply Lifecycle.started_enabled].
  - apply reaches_step; [| eexists _, _; split; by vm_compute].
    apply reaches_step; [apply reaches_refl | by vm_compute].
  - by vm_compute.
Defined.

Lemma effect_settled s s' call :
  effect s s' → settledAt s call = true → settledAt s' call = true.
Proof.
  intros Heff Hs. destruct Heff; autorewrite with server; try done; by case_decide.
Qed.

(** A pending timeout timer stays pending until it fires, and when it
    fires the activation it names is settled. *)
Lemma turn_timeout_kept s s' d id call :
  turn s s' → (d, TimeoutTimer id call) ∈ timers s →
  (d, TimeoutTimer id call) ∈ timers s' ∨ settledAt s' call = true.
Proof.
  intros Hturn Hin. destruct Hturn as
    [| id' args Hfresh Hvalid | k id' response Hid Hs | k id' error Hid Hs
     | id' ref task Hget Hobj Hterm | k d' id' k' Hk Hd Hid Hs | k d' id' k' Hk Hd Hs
     | k d' id' Hk Hd | ms Hms].
  - by left.
  - left. rewrite timers_start. apply elem_of_app. by left.
  - left. unfold resolved. destruct (completionResult _ _); unfold rejected;
      rewrite timers_finish; apply elem_of_app; by left.
  - left. unfold rejected. rewrite timers_finish. apply elem_of_app. by left.
  - left. by rewrite timers_update.
  - unfold rejected. rewrite timers_finish, settledAt_finish, timers_update, idOf_update.
    change (timers (dropTimer k s)) with (delete k (timers s)).
    change (idOf (dropTimer k s) call) with (idOf s call).
    destruct (elem_of_delete_or _ _ _ _ Hin Hk) as [Heq | Hrest].
    + right. injection Heq as -> -> ->. rewrite decide_True; [done |].
      split; [done |]. rewrite Hid. by eexists.
    + left. apply elem_of_app. by left.
  - rewrite timers_update, settledAt_update.
    change (timers (dropTimer k s)) with (delete k (timers s)).
    change (settledAt (dropTimer k s) call) with (settledAt s call).
    destruct (elem_of_delete_or _ _ _ _ Hin Hk) as [Heq | Hrest]; [| by left].
    right. by injection Heq as -> -> ->.
  - left. change (timers (remove id' (dropTimer k s))) with (delete k (timers s)).
    by destruct (elem_of_delete_or _ _ _ _ Hin Hk) as [Heq | Hrest].
  - by left.
Qed.

Lemma guarded_reach s : reachable s → guarded s.
Proof.
  intros (m & t0 & Hreach). revert Hreach.
  apply (turns_reach guarded).
  - intros s1 s2 Hwf Hturn Hguard call id Hid' Hs'.
    pose proof (turn_effect s1 s2 Hturn) as Heff.
    pose proof (effect_now s1 s2 Heff) as Hnow.
    assert (Hs : settledAt s1 call = false).
    { destruct (settledAt s1 call) eqn:Hs; [| done].
      pose proof (effect_settled s1 s2 call Heff Hs). congruence. }
    destruct (idOf s1 call) as [id1 |] eqn:Hid1.
    + assert (id1 = id) as ->.
      { pose proof (effect_idOf s1 s2 Heff _ _ Hid1). congruence. }
      destruct (Hguard _ _ Hid1 Hs) as (d & Hin & Hd).
      destruct (turn_timeout_kept s1 s2 _ _ _ Hturn Hin); [| congruence].
      exists d. split; [done | lia].
    + assert (∃ task', object call s2 = Some task') as [task' Hobj'].
      { unfold idOf, object in *. destruct (calls s2 !! call); [by eexists | done]. }
      destruct (turn_object s1 s2 call task' Hwf Hturn Hobj')
        as [Hold | [(task & f & Hold & Hf & ->) | (id0 & args & Hcall & -> & ->)]].
      * unfold idOf, object in *. by destruct (calls s1 !! call).
      * unfold idOf, object in *. by destruct (calls s1 !! call).
      * subst call. rewrite idOf_start, decide_True in Hid' by done.
        injection Hid' as <-.
        exists (now s1 + COMPLETION_TIMEOUT_MS). split.
        -- rewrite timers_start. apply elem_of_app. right.
           apply list_elem_of_singleton. reflexivity.
        -- rewrite now_start. lia.
  - apply wf_init.
  - intros call id. unfold idOf; simpl. done.
Qed.

(** In every state of a run, an activation that still awaits its race has
    its timeout timer pending, due no later than 60000 ms from now:
    [cancelTask] does not clear it, and it cannot have fired without
    settling the race. *)
Theorem timeout_pending s call c :
  reachable s → calls s !! call = Some c → settled c = false →
  ∃ d, (d, TimeoutTimer (taskId c) call) ∈ timers s ∧
       d ≤ now s + COMPLETION_TIMEOUT_MS.
Proof.
  intros Hreach Hc Hs. apply (guarded_reach s Hreach).
  - unfold idOf. by rewrite Hc.
  - unfold settledAt. by rewrite Hc.
Qed.

Lemma timeout_pending_example :
  ∃ d, (d, TimeoutTimer "task-1" 0) ∈ timers (handle (CancelTask "task-1") started) ∧
       d ≤ now (handle (CancelTask "task-1") started) + COMPLETION_TIMEOUT_MS.
Proof.
  assert (Hreach : reachable (handle (CancelTask "task-1") started)).
  { exists DEFAULT_MODEL, 0.
    apply reaches_step; [| exact I].
    apply reaches_step; [apply reaches_refl | apply Lifecycle.started_enabled]. }
  apply (timeout_pending _ 0%nat (on_task cancelled (newCall "task-1" fresh)) Hreach);
    by vm_compute.
Defined.

(** *** The outbound call fails *)

Lemma calls_update_at id f s call c :
  get id s = Some call → calls s !! call = Some c →
  calls (update id f s) !! call = Some (on_task f c).
Proof.
  intros Hget Hc. unfold update. rewrite Hget. unfold assign; simpl.
  by rewrite list_lookup_alter_eq, Hc.
Qed.

(** The turn in which the race of an activation settles with a
    rejection. *)
Lemma rejects_racing s call c error :
  wf s → calls s !! call = Some c → settled c = false →
  (complete_catch (taskId c) call error (settle call s)).1
    = Throws (thrown (Types.aborted (Types.abortController (task c))) error) ∧
  lookupTask (taskId c) (handle (ApiRejects call error) s) = Some (failed error (task c)) ∧
  answerOf (handle (ApiRejects call error) s) call
    = Some (failureAnswer (Types.aborted (Types.abortController (task c))) error).
Proof.
  intros Hwf Hc Hs.
  pose proof (Lifecycle.racing_registered s call c Hwf Hc Hs) as Hget.
  cbn [handle]. rewrite raceRejects_eq, Hc, Hs, complete_catch_eq.
  unfold rejected. rewrite signalAborted_settle. unfold signalAborted.
  rewrite Lifecycle.lookupTask_finish, (Lifecycle.object_call s call c) by done.
  split; [done |]. split; [done |].
  rewrite Lifecycle.answerOf_finish by eauto. by rewrite failure_answer.
Qed.

(** When the outbound call of an activation that still awaits its race
    rejects, the task is marked Error with the [message] property of the
    rejection (which for a protocol error is "MCP error <code>: ..."; the
    text "Unknown error" when the rejection is not an [Error]) and keeps
    its other fields.  A timeout or cancellation error is passed on and
    answered with its text; any other rejection is answered with the
    cancellation text when the task's cancellation handle has been
    signalled, and with the protocol error "OpenAI API error: ..."
    otherwise. *)
Theorem upstream_failure s call c error :
  reachable s →
  calls s !! call = Some c → settled c = false →
  ∃ stored,
    lookupTask (taskId c) (handle (ApiRejects call error) s) = Some stored ∧
    Types.status stored = CompletionStatusEnum.Error ∧
    Types.error stored = Some (messageOr (fun _ => "Unknown error") error) ∧
    Types.result stored = Types.result (task c) ∧
    Types.progress stored = Types.progress (task c) ∧
    answerOf (handle (ApiRejects call error) s) call
      = Some (match error with
              | CompletionTimeoutError _ => Returns (textContent timedOutText)
              | CompletionCancelledError _ => Returns (textContent cancelledText)
              | _ =>
                  if Types.aborted (Types.abortController (task c))
                  then Returns (textContent cancelledText)
                  else Throws (McpError InvalidRequest
                                 ("OpenAI API error: "
                                  ++ messageOr (fun rendering => rendering) error))
              end).
Proof.
  intros Hreach Hc Hs.
  destruct (rejects_racing s call c error (wf_reachable s Hreach) Hc Hs)
    as (_ & Hlook & Hanswer).
  exists (failed error (task c)). by repeat split.
Qed.

Lemma upstream_failure_example :
  answerOf (handle (ApiRejects 0 (OtherError "401 Unauthorized")) started) 0
  = Some (Throws (McpError InvalidRequest "OpenAI API error: 401 Unauthorized")).
Proof.
  destruct (upstream_failure started 0 (newCall "task-1" fresh) (OtherError "401 Unauthorized")
              Lifecycle.started_reachable eq_refl eq_refl)
    as (stored & _ & _ & _ & _ & _ & Hanswer).
  exact Hanswer.
Defined.

(** When [cancelTask] has returned true for the task of an activation that
    awaits its race, the task is Error with the message "Task cancelled by
    user".  When the outbound call then rejects, the caller receives the
    cancellation text (the timeout text if the rejection is a timeout
    error), the task stays Error, and the message that [cancelTask] stored
    is replaced by the message of the rejection. *)
Theorem cancel_then_rejection s call c error :
  reachable s →
  calls s !! call = Some c → settled c = false →
  (cancelTask (taskId c) s).1 = true →
  ∃ stored,
    (Types.status <$> lookupTask (taskId c) (cancelTask (taskId c) s).2)
      = Some CompletionStatusEnum.Error ∧
    (Types.error <$> lookupTask (taskId c) (cancelTask (taskId c) s).2)
      = Some (Some "Task cancelled by user") ∧
    lookupTask (taskId c) (handle (ApiRejects call error) (cancelTask (taskId c) s).2)
      = Some stored ∧
    Types.status stored = CompletionStatusEnum.Error ∧
    Types.error stored = Some (messageOr (fun _ => "Unknown error") error) ∧
    answerOf (handle (ApiRejects call error) (cancelTask (taskId c) s).2) call
      = Some (match error with
              | CompletionTimeoutError _ => Returns (textContent timedOutText)
              | _ => Returns (textContent cancelledText)
              end).
Proof.
  intros Hreach Hc Hs Htrue. pose proof (wf_reachable s Hreach) as Hwf.
  pose proof (Lifecycle.racing_registered s call c Hwf Hc Hs) as Hget.
  rewrite cancelTask_eq, Hget, (Lifecycle.object_call s call c Hc) in Htrue |- *.
  destruct (CompletionStatusEnum.terminal (Types.status (task c))); [done |].
  cbn [snd].
  assert (Hc1 : calls (update (taskId c) cancelled s) !! call = Some (on_task cancelled c)).
  { by apply calls_update_at. }
  destruct (rejects_racing (update (taskId c) cancelled s) call (on_task cancelled c) error)
    as (_ & Hlook & Hanswer); [by apply wf_update; [apply cancelled_finishes |] | done | done |].
  exists (failed error (task (on_task cancelled c))).
  assert (Hcancelled : lookupTask (taskId c) (update (taskId c) cancelled s)
                       = Some (cancelled (task c))).
  { rewrite Lifecycle.lookupTask_update. unfold lookupTask. rewrite Hget. simpl.
    by rewrite (Lifecycle.object_call s call c Hc). }
  rewrite Hcancelled. split; [done |]. split; [done |].
  split; [exact Hlook |]. split; [done |]. split; [done |].
  rewrite Hanswer. by destruct error.
Qed.

Lemma cancel_then_rejection_example :
  answerOf (handle (ApiRejects 0 (OtherError "Request was aborted."))
              (cancelTask "task-1" started).2) 0
  = Some (Returns (textContent cancelledText)).
Proof.
  destruct (cancel_then_rejection started 0 (newCall "task-1" fresh)
              (OtherError "Request was aborted.")
              Lifecycle.started_reachable eq_refl eq_refl)
    as (stored & _ & _ & _ & _ & _ & Hanswer); [by vm_compute |].
  exact Hanswer.
Defined.

(** [cancelTask] touches nothing but the task it names, and of that task
    only the cancellation handle, the status and the error message: the
    registry, the timers, the requests, the clock, the answers and every
    other task are as before; no removal is scheduled and no answer is
    given. *)
Theorem cancelTask_frame s id :
  reachable s →
  activeTasks (cancelTask id s).2 = activeTasks s ∧
  timers (cancelTask id s).2 = timers s ∧
  requests (cancelTask id s).2 = requests s ∧
  now (cancelTask id s).2 = now s ∧
  (∀ call, answerOf (cancelTask id s).2 call = answerOf s call ∧
           settledAt (cancelTask id s).2 call = settledAt s call) ∧
  (∀ id', id' ≠ id → lookupTask id' (cancelTask id s).2 = lookupTask id' s) ∧
  (∀ task, lookupTask id s = Some task →
     ∃ task', lookupTask id (cancelTask id s).2 = Some task' ∧
              Types.result task' = Types.result task ∧
              Types.progress task' = Types.progress task ∧
              Types.created_at task' = Types.created_at task ∧
              Types.timeout_at task' = Types.timeout_at task).
Proof.
  intros Hreach. pose proof (wf_reachable s Hreach) as Hwf.
  rewrite cancelTask_eq.
  assert (Hsame : ∀ s0 : t,
            s0 = s →
            activeTasks s0 = activeTasks s ∧ timers s0 = timers s ∧
            requests s0 = requests s ∧ now s0 = now s ∧
            (∀ call, answerOf s0 call = answerOf s call ∧
                     settledAt s0 call = settledAt s call) ∧
            (∀ id', id' ≠ id → lookupTask id' s0 = lookupTask id' s) ∧
            (∀ task, lookupTask id s = Some task →
               ∃ task', lookupTask id s0 = Some task' ∧
                        Types.result task' = Types.result task ∧
                        Types.progress task' = Types.progress task ∧
                        Types.created_at task' = Types.created_at task ∧
                        Types.timeout_at task' = Types.timeout_at task)).
  { intros s0 ->. repeat split; eauto 10. }
  destruct (get id s) as [ref |] eqn:Hget; [| by apply Hsame].
  destruct (object ref s) as [task0 |] eqn:Hobj; [| by apply Hsame].
  destruct (CompletionStatusEnum.terminal (Types.status task0)); [by apply Hsame |].
  cbn [snd]. rewrite activeTasks_update, timers_update, requests_update, now_update.
  repeat split; try done.
  - apply answerOf_update.
  - apply settledAt_update.
  - intros id' Hne. unfold lookupTask, get. rewrite activeTasks_update.
    destruct (activeTasks s !! id') as [ref' |] eqn:Hget'; [| done]. simpl.
    rewrite object_update. rewrite decide_False; [done |].
    intros Hboth. pose proof (wf_refs s Hwf _ _ Hget').
    pose proof (wf_refs s Hwf _ _ Hboth). congruence.
  - intros task Hlook. exists (cancelled task).
    rewrite Lifecycle.lookupTask_update, Hlook. by repeat split.
Qed.

Lemma cancelTask_frame_example :
  timers (cancelTask "task-1" started).2 = timers started.
Proof.
  destruct (cancelTask_frame started "task-1" Lifecycle.started_reachable)
    as (_ & Htimers & _).
  exact Htimers.
Defined.

(** *** The timeout callback comes after the race *)

(** When the timeout callback of an activation runs after its [complete]
    has finished and the task is still in the registry, it sets the status
    to Error and the error message to "Completion timed out" whatever the
    task was, keeps the result and the progress, and changes nothing of
    what the caller has received. *)
Theorem timeout_after_race s k d id call task :
  reachable s →
  timers s !! k = Some (d, TimeoutTimer id call) → d ≤ now s →
  settledAt s call = true →
  lookupTask id s = Some task →
  ∃ stored,
    lookupTask id (handle (TimerFires k) s) = Some stored ∧
    Types.status stored = CompletionStatusEnum.Error ∧
    Types.error stored = Some "Completion timed out" ∧
    Types.result stored = Types.result task ∧
    Types.progress stored = Types.progress task ∧
    answerOf (handle (TimerFires k) s) call = answerOf s call.
Proof.
  intros Hreach Hk Hd Hs Hlook. pose proof (wf_reachable s Hreach) as Hwf.
  assert (Hid : idOf s call = Some id).
  { eapply (wf_timeout s Hwf). by eapply list_elem_of_lookup_2. }
  cbn [handle]. rewrite Hk. cbn [runTimer]. unfold timeoutCallback.
  fold (dropTimer k s). rewrite timeoutMark_update, raceRejects_cases.
  fold marked. rewrite idOf_update, settledAt_update.
  change (idOf (dropTimer k s) call) with (idOf s call).
  change (settledAt (dropTimer k s) call) with (settledAt s call).
  rewrite Hid, Hs. rewrite Lifecycle.lookupTask_update, answerOf_update.
  change (lookupTask id (dropTimer k s)) with (lookupTask id s).
  change (answerOf (dropTimer k s) call) with (answerOf s call).
  rewrite Hlook. exists (marked task). by repeat split.
Qed.

Lemma timeout_after_race_example :
  ∃ stored,
    lookupTask "task-1" overwritten = Some stored ∧
    Types.status stored = CompletionStatusEnum.Error ∧
    is_Some (Types.result stored).
Proof.
  assert (Hreach : reachable (handle (Elapse 59000) completed)).
  { exists DEFAULT_MODEL, 0.
    apply reaches_step; [| by vm_compute].
    apply reaches_step; [| by (eexists; vm_compute)].
    apply reaches_step; [| by vm_compute].
    apply reaches_step; [apply reaches_refl | apply Lifecycle.started_enabled]. }
  destruct (timeout_after_race (handle (Elapse 59000) completed) 0 60000 "task-1" 0
              (succeeded
                 {| Types.text := " there was"; Types.model := DEFAULT_MODEL;
                    Types.finish_reason := Some "stop";
                    Types.usage := Some {| Types.prompt_tokens := 4 # 1;
                                           Types.completion_tokens := 3 # 1;
                                           Types.total_tokens := 7 # 1 |} |}
                 (task (newCall "task-1" fresh)))
              Hreach)
    as (stored & Hlook & Hstatus & _ & Hresult & _); try (by vm_compute).
  exists stored. split; [exact Hlook |]. split; [exact Hstatus |].
  rewrite Hresult. by eexists.
Defined.

(** *** The handler of tool calls *)

Lemma falsy_not_wellShaped arguments :
  truthy arguments = false → ¬ Utils.wellShaped arguments.
Proof.
  intros Hfalsy (Htype & Hnull & _).
  destruct arguments; simpl in Htype; try discriminate; try done.
Qed.

Lemma handleCompleteTool_cases args uuid s :
  (Utils.wellShaped args →
   handleCompleteTool args uuid s = (Returns (length (calls s)), (complete_start uuid args s).2))
  ∧ (¬ Utils.wellShaped args →
     handleCompleteTool args uuid s
     = (Throws (McpError InvalidParams "Invalid completion arguments"), s)).
Proof.
  unfold handleCompleteTool.
  destruct (UtilsFacts.isValidCompletionArgs_wellShaped args) as (b & -> & Hiff).
  split; intros Hshape.
  - assert (b = true) as -> by tauto.
    by rewrite complete_start_eq.
  - destruct b; [tauto | done].
Qed.

(** The handler of tool calls answers in exactly three ways.  A name other
    than "complete" is refused with MethodNotFound and the name.  A call of
    "complete" whose arguments are not well shaped (missing arguments count
    as the empty object) is refused with InvalidParams.  In both cases
    nothing of the server changes: no task, no request, no timer.  A call
    of "complete" with well shaped arguments starts one activation. *)
Theorem callTool_cases name arguments uuid s :
  (name ≠ "complete" →
   callTool name arguments uuid s
   = (Throws (McpError MethodNotFound ("Unknown tool: " ++ name)), s))
  ∧ (name = "complete" → ¬ Utils.wellShaped arguments →
     callTool name arguments uuid s
     = (Throws (McpError InvalidParams "Invalid completion arguments"), s))
  ∧ (name = "complete" → Utils.wellShaped arguments →
     callTool name arguments uuid s
     = (Returns (length (calls s)), (complete_start uuid arguments s).2)).
Proof.
  unfold callTool.
  destruct (String.eqb_spec name "complete") as [-> | Hname]; simpl.
  - split; [done |].
    destruct (truthy arguments) eqn:Htruthy.
    + destruct (handleCompleteTool_cases arguments uuid s) as [Hgood Hbad].
      split; intros _; [apply Hbad | apply Hgood].
    + pose proof (falsy_not_wellShaped arguments Htruthy) as Hnot.
      split; [| done]. intros _ _.
      destruct (handleCompleteTool_cases (JsObject []) uuid s) as [_ Hbad].
      apply Hbad. intros (_ & _ & [p Hp] & _). discriminate.
  - split; [done |]. split; done.
Qed.

Lemma callTool_cases_example :
  callTool "foo" onceUponATime "task-2" started
  = (Throws (McpError MethodNotFound "Unknown tool: foo"), started).
Proof.
  destruct (callTool_cases "foo" onceUponATime "task-2" started) as [Hname _].
  apply Hname. discriminate.
Defined.

(** *** The tool list *)

(** The tool list and the handler of tool calls agree on what exists: a
    call is refused with MethodNotFound exactly when its name is not among
    the names the tool list gives, whatever the arguments. *)
Theorem advertised_tools name arguments uuid s :
  (∃ message, (callTool name arguments uuid s).1 = Throws (McpError MethodNotFound message))
  ↔ JsString name ∉ toolNames.
Proof.
  change toolNames with [JsString "complete"].
  rewrite list_elem_of_singleton. unfold callTool.
  destruct (String.eqb_spec name "complete") as [-> | Hname]; simpl.
  - split; [| done]. intros [message Hthrown]. exfalso.
    destruct (truthy arguments);
      [destruct (handleCompleteTool_cases arguments uuid s) as [Hgood Hbad]
      | destruct (handleCompleteTool_cases (JsObject []) uuid s) as [Hgood Hbad]].
    + destruct (UtilsFacts.isValidCompletionArgs_wellShaped arguments) as ([] & _ & Hiff).
      * rewrite Hgood in Hthrown by tauto. discriminate.
      * rewrite Hbad in Hthrown; [discriminate |]. intros Hshape.
        by destruct Hiff as [_ Hiff]; specialize (Hiff Hshape).
    + rewrite Hbad in Hthrown; [discriminate |].
      intros (_ & _ & [p Hp] & _). discriminate.
  - split; [| by eexists]. intros _ Heq. by injection Heq.
Qed.


Lemma parameter_requestOf m args name :
  parameter (requestOf m args) name
  = if bool_decide (name ∈ Utils.optionalNumericParams)
    then orDefault (prop args name)
           (match prop (prop (prop inputSchema "properties") name) "default" with
            | JsNumber d => d
            | _ => 0%Q
            end)
    else JsUndefined.
Proof.
  unfold parameter.
  destruct (String.eqb_spec name "max_tokens") as [-> | H1]; [done |].
  destruct (String.eqb_spec name "temperature") as [-> | H2]; [done |].
  destruct (String.eqb_spec name "top_p") as [-> | H3]; [done |].
  destruct (String.eqb_spec name "frequency_penalty") as [-> | H4]; [done |].
  destruct (String.eqb_spec name "presence_penalty") as [-> | H5]; [done |].
  rewrite bool_decide_eq_false_2; [done |].
  unfold Utils.optionalNumericParams. intros Hin.
  repeat (apply elem_of_cons in Hin as [-> | Hin]; [done |]).
  by apply elem_of_nil in Hin.
Qed.

(** The tool list tells the truth about the defaults: the schema declares
    the names the validator checks, requires "prompt" alone, and for every
    optional parameter that well shaped arguments leave out, the request
    handed to the HTTP client carries the [default] the schema advertises
    under that name; a parameter that is given is passed on as it is. *)
Theorem advertised_defaults args uuid s name :
  Utils.wellShaped args →
  name ∈ Utils.optionalNumericParams →
  (prop inputSchema "required" = JsArray [ JsString "prompt" ] ∧
   (∃ fields, prop inputSchema "properties" = JsObject fields
              ∧ fields.*1 = Utils.checkedNames)) ∧
  ∃ request,
    requests (handleCompleteTool args uuid s).2 = (requests s ++ [request])%list ∧
    (prop args name = JsUndefined →
     parameter request name = prop (prop (prop inputSchema "properties") name) "default") ∧
    (prop args name ≠ JsUndefined → parameter request name = prop args name).
Proof.
  intros Hshape Hname. split.
  { split; [done |]. by eexists. }
  destruct (handleCompleteTool_cases args uuid s) as [Hgood _].
  rewrite (Hgood Hshape), complete_start_eq. cbn [snd requests].
  exists (requestOf (model s) args). split; [done |].
  rewrite parameter_requestOf, bool_decide_eq_true_2 by done.
  split.
  - intros ->. simpl.
    unfold Utils.optionalNumericParams in Hname.
    repeat (apply elem_of_cons in Hname as [-> | Hname]; [done |]).
    by apply elem_of_nil in Hname.
  - intros Hgiven. by destruct (prop args name).
Qed.

Lemma advertised_defaults_example :
  ∃ request,
    requests (handleCompleteTool onceUponATime
                "task-1" fresh).2 = [request] ∧
    parameter request "temperature" = JsNumber (7 # 10).
Proof.
  assert (Hshape : Utils.wellShaped onceUponATime).
  { split; [done |]. split; [done |]. split; [by eexists |].
    repeat split; by left. }
  assert (Hname : "temperature" ∈ Utils.optionalNumericParams).
  { unfold Utils.optionalNumericParams. apply elem_of_cons. right. apply elem_of_cons. by left. }
  destruct (advertised_defaults onceUponATime "task-1" fresh "temperature" Hshape Hname)
    as (_ & request & Hsent & Hdefault & _).
  exists request. split; [exact Hsent |]. by apply Hdefault.
Defined.

(** *** The start of the process *)



End RunFacts.
